(** * simple-ai: a verification development for the orchestration code

    The panels of the application (chat, script writer, image tool, video
    factory, live talk) and the service facade are TypeScript.  Each
    module below embeds one source unit as Rocq functions: local
    variables and React state are threaded explicitly, an async iterator
    is the finite list of what it delivers, a thrown exception is a
    constructor of the result type, and the vendor SDK is an input that
    says what the call returned or threw. *)

From Stdlib Require Import String Ascii.
From Stdlib Require DecimalString.
From Stdlib Require Import List Bool Arith ZArith NArith QArith Qminmax Lia Lqa.
Import ListNotations.

Set Implicit Arguments.

(* ================================================================== *)
(** * JavaScript strings and truthiness *)
(* ================================================================== *)

Module JS.

(** A JavaScript string is a sequence of UTF-16 code units; [length],
    [substring], [lastIndexOf] and [+] all work on code units. *)
Definition jsstring := list N.

(** String literals of the source, written as Rocq strings. *)
Definition lit (s : string) : jsstring :=
  map N_of_ascii (list_ascii_of_string s).

(** [a === b] on strings. *)
Fixpoint eqb (a b : jsstring) : bool :=
  match a, b with
  | [], [] => true
  | x :: a', y :: b' => N.eqb x y && eqb a' b'
  | _, _ => false
  end.

(** A string is truthy when it is not empty. *)
Definition truthy (s : jsstring) : bool :=
  match s with [] => false | _ => true end.

(** [WhiteSpace] and [LineTerminator] code points of ECMAScript, the set
    [String.prototype.trim] strips. *)
Definition isWhiteSpace (c : N) : bool :=
  ((9 <=? c) && (c <=? 13) || (c =? 32) || (c =? 160) || (c =? 5760)
   || (8192 <=? c) && (c <=? 8202) || (c =? 8232) || (c =? 8233)
   || (c =? 8239) || (c =? 8287) || (c =? 12288) || (c =? 65279))%N.

Fixpoint trimStart (s : jsstring) : jsstring :=
  match s with
  | c :: s' => if isWhiteSpace c then trimStart s' else s
  | [] => []
  end.

Definition trimEnd (s : jsstring) : jsstring := rev (trimStart (rev s)).

Definition trim (s : jsstring) : jsstring := trimEnd (trimStart s).

(** An index argument of [substring], clamped to [0 .. s.length]. *)
Definition clampIndex (s : jsstring) (i : Z) : nat :=
  Z.to_nat (Z.min (Z.max i 0) (Z.of_nat (length s))).

(** [s.substring(a, b)]: both indices are clamped, and swapped when
    [a > b]. *)
Definition substring (s : jsstring) (a b : Z) : jsstring :=
  let a' := clampIndex s a in
  let b' := clampIndex s b in
  firstn (Nat.max a' b' - Nat.min a' b') (skipn (Nat.min a' b') s).

(** [s.substring(a)]. *)
Definition substringFrom (s : jsstring) (a : Z) : jsstring :=
  skipn (clampIndex s a) s.

(** [s.startsWith(p)]. *)
Fixpoint startsWith (s p : jsstring) : bool :=
  match p, s with
  | [], _ => true
  | x :: p', y :: s' => N.eqb x y && startsWith s' p'
  | _ :: _, [] => false
  end.

(** [s.includes(p)]. *)
Fixpoint includes (s p : jsstring) : bool :=
  startsWith s p ||
  match s with
  | [] => false
  | _ :: s' => includes s' p
  end.

(** Scan for the last match of [p]: [i] is the index of the head of [s],
    [acc] the last match seen so far ([-1] when there is none). *)
Fixpoint lastIndexOf_from (s p : jsstring) (i acc : Z) : Z :=
  let acc' := if startsWith s p then i else acc in
  match s with
  | [] => acc'
  | _ :: s' => lastIndexOf_from s' p (i + 1) acc'
  end.

(** [s.lastIndexOf(p)]: the largest index at which [p] occurs, or [-1]. *)
Definition lastIndexOf (s p : jsstring) : Z := lastIndexOf_from s p 0 (-1).

Arguments lit s%_string.

Lemma eqb_refl (a : jsstring) : eqb a a = true.
Proof.
  induction a as [|x a IH]; simpl; [reflexivity|].
  now rewrite N.eqb_refl, IH.
Qed.

Lemma eqb_eq (a b : jsstring) : eqb a b = true <-> a = b.
Proof.
  revert b; induction a as [|x a IH]; intros [|y b]; simpl;
    try (split; [discriminate | discriminate]); [tauto|].
  rewrite andb_true_iff, N.eqb_eq, IH.
  split; [intros [-> ->]; reflexivity | intros H; inversion H; auto].
Qed.

Lemma trimStart_length (s : jsstring) : (length (trimStart s) <= length s)%nat.
Proof.
  induction s as [|c s IH]; simpl; [lia|].
  destruct (isWhiteSpace c); simpl; lia.
Qed.

Lemma trim_length (s : jsstring) : (length (trim s) <= length s)%nat.
Proof.
  unfold trim, trimEnd.
  rewrite length_rev.
  etransitivity; [apply trimStart_length|].
  rewrite length_rev. apply trimStart_length.
Qed.

End JS.

Import JS.

(* ================================================================== *)
(** * Streaming generation: [ChatView.handleSendMessage] and
      [ScriptGenieView.handleSubmit] *)
(* ================================================================== *)

Module Streaming.

(** One item of the vendor's response stream; the loops read only
    [chunk.text]. *)
Record StreamChunk := { text : jsstring }.

(** What one step of [for await (const chunk of stream)] delivers: the
    next chunk, or an exception raised by the transport.  The end of the
    list is the end of the stream. *)
Inductive StreamEvent :=
| Deliver (chunk : StreamChunk)
| Raise.

(** [ChatMessage] of [types.ts]. *)
Inductive Role := user | model.

Record ChatMessage := {
  id : jsstring;
  role : Role;
  parts : list jsstring;
  imagePreview : option jsstring;
  isStreaming : bool;
  groundingSources : option (list (jsstring * jsstring))
}.

Definition withParts (msg : ChatMessage) (p : list jsstring) : ChatMessage :=
  {| id := id msg; role := role msg; parts := p;
     imagePreview := imagePreview msg; isStreaming := isStreaming msg;
     groundingSources := groundingSources msg |}.

Definition withIsStreaming (msg : ChatMessage) (b : bool) : ChatMessage :=
  {| id := id msg; role := role msg; parts := parts msg;
     imagePreview := imagePreview msg; isStreaming := b;
     groundingSources := groundingSources msg |}.

(** The part of the [ChatView] state the streaming branch writes. *)
Record ChatState := {
  messages : list ChatMessage;
  error : option jsstring;
  isLoading : bool
}.

(** How a loop over a stream ended. *)
Inductive LoopExit := Finished | Thrown.

(** The updater of the loop's [setMessages]:
    [msg.id === modelResponse.id ? { ...msg, parts: [{ text: fullResponse }] } : msg]. *)
Definition showStreamed (modelId fullResponse : jsstring) (msg : ChatMessage)
  : ChatMessage :=
  if JS.eqb (id msg) modelId then withParts msg [fullResponse] else msg.

(** The updater after the loop:
    [msg.id === modelResponse.id ? { ...msg, isStreaming: false } : msg]. *)
Definition markComplete (modelId : jsstring) (msg : ChatMessage) : ChatMessage :=
  if JS.eqb (id msg) modelId then withIsStreaming msg false else msg.

(** The loop of [handleSendMessage]:
<<
  let fullResponse = '';
  for await (const chunk of stream) {
      const chunkText = chunk.text;
      fullResponse += chunkText;
      setMessages(prev => prev.map((msg) =>
          msg.id === modelResponse.id
              ? { ...msg, parts: [{ text: fullResponse }] } : msg));
  }
>>
    The local [fullResponse] and the [messages] state are threaded. *)
Fixpoint chatLoop (modelId : jsstring) (stream : list StreamEvent)
    (fullResponse : jsstring) (msgs : list ChatMessage)
  : LoopExit * jsstring * list ChatMessage :=
  match stream with
  | [] => (Finished, fullResponse, msgs)
  | Raise :: _ => (Thrown, fullResponse, msgs)
  | Deliver chunk :: rest =>
      let chunkText := text chunk in
      let fullResponse := fullResponse ++ chunkText in
      let msgs := map (showStreamed modelId fullResponse) msgs in
      chatLoop modelId rest fullResponse msgs
  end.

(** The streaming branch of [handleSendMessage], from the moment the
    stream is open: the placeholder model message is appended, the loop
    runs, then either the message is marked complete or, in the [catch],
    the user message and the placeholder are removed.  The result pairs
    the final value of the local [fullResponse] with the panel state. *)
Definition handleSendMessage_stream (userId modelId : jsstring)
    (currentMessages : list ChatMessage) (stream : list StreamEvent)
  : jsstring * ChatState :=
  let modelResponse :=
    {| id := modelId; role := model; parts := [lit ""];
       imagePreview := None; isStreaming := true;
       groundingSources := None |} in
  let msgs := currentMessages ++ [modelResponse] in
  match chatLoop modelId stream (lit "") msgs with
  | (Finished, fullResponse, msgs) =>
      (fullResponse,
       {| messages := map (markComplete modelId) msgs;
          error := None; isLoading := false |})
  | (Thrown, fullResponse, msgs) =>
      (fullResponse,
       {| messages :=
            filter (fun m => negb (JS.eqb (id m) userId)
                             && negb (JS.eqb (id m) modelId)) msgs;
          error := Some (lit "An error occurred. Please try again.");
          isLoading := false |})
  end.

(** The loop of [ScriptGenieView.handleSubmit]:
<<
  let scriptContent = '';
  for await (const chunk of stream) {
    const text = chunk.text;
    scriptContent += text;
    setGeneratedScript(scriptContent);
  }
>> *)
Fixpoint scriptLoop (stream : list StreamEvent)
    (scriptContent generatedScript : jsstring)
  : LoopExit * jsstring * jsstring :=
  match stream with
  | [] => (Finished, scriptContent, generatedScript)
  | Raise :: _ => (Thrown, scriptContent, generatedScript)
  | Deliver chunk :: rest =>
      let scriptContent := scriptContent ++ text chunk in
      scriptLoop rest scriptContent scriptContent
  end.

(** [handleSubmit] of the script panel from [setGeneratedScript('')] on;
    the result is the local [scriptContent], the [generatedScript] state
    and whether [saveScriptToHistory(scriptContent)] is called
    ([if (scriptContent.trim())]). *)
Definition handleSubmit_stream (stream : list StreamEvent)
  : jsstring * jsstring * bool :=
  match scriptLoop stream (lit "") (lit "") with
  | (Finished, scriptContent, generatedScript) =>
      (scriptContent, generatedScript, truthy (trim scriptContent))
  | (Thrown, scriptContent, _) =>
      (scriptContent,
       lit "Sorry, an error occurred while generating the script.", false)
  end.

(** The chunks of a stream that never raises. *)
Definition delivered (cs : list jsstring) : list StreamEvent :=
  map (fun c => Deliver {| text := c |}) cs.

(** A Streaming Session as the consumer lives it: what the transport
    delivers, and, between two deliveries, the consumer asking to stop. *)
Inductive SessionEvent :=
| FromTransport (event : StreamEvent)
| Cancel.

(** What the two loops are given of a session.  [for await] pulls from
    the vendor's iterator and from nothing else: neither handler takes
    an abort signal or hands one to the vendor, and the loop bodies test
    no flag or ref before a chunk is applied (while a session runs,
    [isLoading] disables the send, new-chat, history and mode controls,
    and no stop control is rendered).  A request to stop therefore never
    reaches the loop: it is given the events of the transport alone. *)
Fixpoint seenByLoop (session : list SessionEvent) : list StreamEvent :=
  match session with
  | [] => []
  | FromTransport event :: rest => event :: seenByLoop rest
  | Cancel :: rest => seenByLoop rest
  end.

(** The session of the claim: the chunks [pre] are applied, the consumer
    cancels, and the transport goes on to deliver the chunks [post]. *)
Definition cancelledAfter (pre post : list jsstring) : list SessionEvent :=
  map FromTransport (delivered pre) ++ Cancel :: map FromTransport (delivered post).

(** ** The loops accumulate by concatenation *)

(** The [messages] state once the chunks [pre] have been applied on top
    of the buffer [acc]. *)
Definition shown (modelId : jsstring) (pre : list jsstring) (acc : jsstring)
    (msgs : list ChatMessage) : list ChatMessage :=
  match pre with
  | [] => msgs
  | _ => map (showStreamed modelId (acc ++ concat pre)) msgs
  end.

Lemma showStreamed_twice modelId a b msgs :
  map (showStreamed modelId b) (map (showStreamed modelId a) msgs)
  = map (showStreamed modelId b) msgs.
Proof.
  rewrite map_map. apply map_ext. intros msg. unfold showStreamed.
  destruct (JS.eqb (id msg) modelId) eqn:E; simpl; [|now rewrite E].
  now rewrite E.
Qed.

Lemma chatLoop_app modelId pre rest : forall acc msgs,
  chatLoop modelId (delivered pre ++ rest) acc msgs
  = chatLoop modelId rest (acc ++ concat pre) (shown modelId pre acc msgs).
Proof.
  induction pre as [|c pre IH]; intros acc msgs; simpl.
  - now rewrite app_nil_r.
  - rewrite IH. rewrite <- app_assoc. f_equal.
    destruct pre as [|c' pre]; simpl; [now rewrite !app_nil_r|].
    now rewrite showStreamed_twice, <- !app_assoc.
Qed.

Lemma scriptLoop_app pre rest : forall acc gen,
  scriptLoop (delivered pre ++ rest) acc gen
  = scriptLoop rest (acc ++ concat pre)
      (match pre with [] => gen | _ => acc ++ concat pre end).
Proof.
  induction pre as [|c pre IH]; intros acc gen; simpl.
  - now rewrite app_nil_r.
  - rewrite IH, <- app_assoc. f_equal.
    destruct pre; simpl; now rewrite ?app_nil_r.
Qed.

Lemma shown_last modelId pre currentMessages m :
  id m = modelId -> parts m = [lit ""] ->
  shown modelId pre (lit "") (currentMessages ++ [m])
  = shown modelId pre (lit "") currentMessages ++ [withParts m [concat pre]].
Proof.
  intros Hid Hparts. destruct pre as [|c pre]; simpl.
  - f_equal. destruct m; simpl in *; subst; reflexivity.
  - rewrite map_app. simpl. f_equal. unfold showStreamed at 1.
    now rewrite Hid, JS.eqb_refl.
Qed.

Lemma shown_length modelId pre acc msgs :
  length (shown modelId pre acc msgs) = length msgs.
Proof. destruct pre; simpl; [reflexivity | apply length_map]. Qed.

Lemma handleSendMessage_stream_delivered userId modelId currentMessages cs :
  handleSendMessage_stream userId modelId currentMessages (delivered cs)
  = (concat cs,
     {| messages :=
          map (markComplete modelId) (shown modelId cs (lit "") currentMessages)
          ++ [ {| id := modelId; role := model; parts := [concat cs];
                  imagePreview := None; isStreaming := false;
                  groundingSources := None |} ];
        error := None; isLoading := false |}).
Proof.
  unfold handleSendMessage_stream.
  rewrite <- (app_nil_r (delivered cs)), chatLoop_app. simpl chatLoop.
  rewrite shown_last by reflexivity.
  rewrite map_app. simpl. unfold markComplete at 2. simpl.
  now rewrite JS.eqb_refl.
Qed.

Lemma handleSubmit_stream_delivered cs :
  handleSubmit_stream (delivered cs)
  = (concat cs, concat cs, truthy (trim (concat cs))).
Proof.
  unfold handleSubmit_stream.
  rewrite <- (app_nil_r (delivered cs)), scriptLoop_app. simpl.
  destruct cs; reflexivity.
Qed.

Lemma seenByLoop_app s1 s2 :
  seenByLoop (s1 ++ s2) = seenByLoop s1 ++ seenByLoop s2.
Proof.
  induction s1 as [|[e|] s1 IH]; simpl; [reflexivity | now rewrite IH | exact IH].
Qed.

Lemma seenByLoop_transport events :
  seenByLoop (map FromTransport events) = events.
Proof. induction events as [|e events IH]; simpl; [reflexivity | now rewrite IH]. Qed.

Lemma seenByLoop_cancel before after :
  seenByLoop (before ++ Cancel :: after) = seenByLoop (before ++ after).
Proof. now rewrite !seenByLoop_app. Qed.

Lemma seenByLoop_cancelledAfter pre post :
  seenByLoop (cancelledAfter pre post) = delivered (pre ++ post).
Proof.
  unfold cancelledAfter, delivered.
  rewrite seenByLoop_cancel, <- map_app, seenByLoop_transport.
  symmetry. apply map_app.
Qed.

(** C1. When the chunks [cs] are delivered in order and the stream ends,
    the buffer of the chat loop ([fullResponse]) and the buffer of the
    script loop ([scriptContent]) both equal the concatenation of [cs]
    in delivery order, whatever the chunk boundaries are; the text shown
    for the model message and the script shown by the panel are that
    same concatenation. *)
Theorem stream_accumulates_concatenation
    (userId modelId : jsstring) (currentMessages : list ChatMessage)
    (cs : list jsstring) :
  let chat := handleSendMessage_stream userId modelId currentMessages (delivered cs) in
  let script := handleSubmit_stream (delivered cs) in
  fst chat = concat cs
  /\ (exists before,
        length before = length currentMessages
        /\ messages (snd chat)
           = before ++ [ {| id := modelId; role := model; parts := [concat cs];
                            imagePreview := None; isStreaming := false;
                            groundingSources := None |} ])
  /\ error (snd chat) = None
  /\ fst (fst script) = concat cs
  /\ snd (fst script) = concat cs
  /\ (forall cs' : list jsstring,
        concat cs' = concat cs ->
        fst (handleSendMessage_stream userId modelId currentMessages (delivered cs'))
          = fst chat
        /\ fst (fst (handleSubmit_stream (delivered cs'))) = fst (fst script)).
Proof.
  cbv zeta.
  rewrite handleSendMessage_stream_delivered, handleSubmit_stream_delivered.
  simpl. repeat split; trivial.
  - eexists; split; [|reflexivity].
    now rewrite length_map, shown_length.
  - rewrite handleSendMessage_stream_delivered. simpl. assumption.
  - rewrite handleSubmit_stream_delivered. simpl. assumption.
Qed.

(** The example of the specification: the chunks "Hel", "lo, wor", "ld". *)
Example stream_hello_world :
  fst (handleSendMessage_stream (lit "user-1") (lit "model-1") []
         (delivered [lit "Hel"; lit "lo, wor"; lit "ld"]))
  = lit "Hello, world"
  /\ handleSubmit_stream (delivered [lit "Hel"; lit "lo, wor"; lit "ld"])
     = (lit "Hello, world", lit "Hello, world", true).
Proof. split; vm_compute; reflexivity. Qed.

(** C8, as stated, fails.  Take the session in which the chunk "a" is
    applied, the consumer cancels, and the transport still delivers "b".
    The claim asks for a final buffer holding the first chunk alone; both
    loops end with "ab", in the buffer and on screen, and the script
    panel goes on to save that script. *)
Lemma cancellation_not_honoured :
  ~ (forall pre post : list jsstring,
       fst (handleSendMessage_stream (lit "u") (lit "m") []
              (seenByLoop (cancelledAfter pre post))) = concat pre
       /\ fst (fst (handleSubmit_stream (seenByLoop (cancelledAfter pre post))))
          = concat pre)
  /\ handleSendMessage_stream (lit "u") (lit "m") []
       (seenByLoop (cancelledAfter [lit "a"] [lit "b"]))
     = (lit "ab",
        {| messages := [ {| id := lit "m"; role := model; parts := [lit "ab"];
                            imagePreview := None; isStreaming := false;
                            groundingSources := None |} ];
           error := None; isLoading := false |})
  /\ handleSubmit_stream (seenByLoop (cancelledAfter [lit "a"] [lit "b"]))
     = (lit "ab", lit "ab", true).
Proof.
  split; [|split; vm_compute; reflexivity].
  intros H. destruct (H [lit "a"] [lit "b"]) as [H1 _].
  vm_compute in H1. discriminate H1.
Qed.

(** C8, amended.  After the first chunks [pre] have been applied the
    buffer is their concatenation; there is no cancellation flag, so the
    chunks [post] the transport delivers afterwards are appended too and
    the final buffer is the concatenation of all of them: a session that
    is cancelled after [pre] ends exactly as the session that is not, and
    more generally a request to stop changes nothing wherever it falls.
    The loop stops early only when the transport raises: the chunks after
    the failure are not read, the chat panel drops the partial message
    and shows an error, the script panel shows its error text. *)
Theorem stream_without_cancellation
    (userId modelId : jsstring) (currentMessages : list ChatMessage)
    (pre post : list jsstring) (rest : list StreamEvent) :
  fst (handleSendMessage_stream userId modelId currentMessages (delivered pre))
    = concat pre
  /\ fst (fst (handleSubmit_stream (delivered pre))) = concat pre
  /\ fst (handleSendMessage_stream userId modelId currentMessages
            (delivered (pre ++ post)))
     = concat pre ++ concat post
  /\ fst (fst (handleSubmit_stream (delivered (pre ++ post))))
     = concat pre ++ concat post
  /\ fst (handleSendMessage_stream userId modelId currentMessages
            (delivered pre ++ Raise :: rest)) = concat pre
  /\ (forall m,
        In m (messages (snd (handleSendMessage_stream userId modelId
                               currentMessages (delivered pre ++ Raise :: rest)))) ->
        id m <> modelId /\ id m <> userId)
  /\ handleSubmit_stream (delivered pre ++ Raise :: rest)
     = (concat pre,
        lit "Sorry, an error occurred while generating the script.", false)
  /\ handleSendMessage_stream userId modelId currentMessages
       (seenByLoop (cancelledAfter pre post))
     = handleSendMessage_stream userId modelId currentMessages
         (delivered (pre ++ post))
  /\ fst (handleSendMessage_stream userId modelId currentMessages
            (seenByLoop (cancelledAfter pre post)))
     = concat pre ++ concat post
  /\ handleSubmit_stream (seenByLoop (cancelledAfter pre post))
     = (concat pre ++ concat post, concat pre ++ concat post,
        truthy (trim (concat pre ++ concat post)))
  /\ (forall before after : list SessionEvent,
        handleSendMessage_stream userId modelId currentMessages
          (seenByLoop (before ++ Cancel :: after))
        = handleSendMessage_stream userId modelId currentMessages
            (seenByLoop (before ++ after))
        /\ handleSubmit_stream (seenByLoop (before ++ Cancel :: after))
           = handleSubmit_stream (seenByLoop (before ++ after))).
Proof.
  rewrite seenByLoop_cancelledAfter.
  rewrite !handleSendMessage_stream_delivered, !handleSubmit_stream_delivered.
  simpl. rewrite concat_app. repeat split; trivial.
  - unfold handleSendMessage_stream. rewrite chatLoop_app. reflexivity.
  - unfold handleSendMessage_stream in H. rewrite chatLoop_app in H.
    simpl in H. apply filter_In in H. destruct H as [_ H].
    apply andb_true_iff in H. destruct H as [_ H].
    intros E. apply JS.eqb_eq in E. rewrite E in H. discriminate.
  - unfold handleSendMessage_stream in H. rewrite chatLoop_app in H.
    simpl in H. apply filter_In in H. destruct H as [_ H].
    apply andb_true_iff in H. destruct H as [H _].
    intros E. apply JS.eqb_eq in E. rewrite E in H. discriminate.
  - unfold handleSubmit_stream. rewrite scriptLoop_app. reflexivity.
  - now rewrite seenByLoop_cancel.
  - now rewrite seenByLoop_cancel.
Qed.

End Streaming.

(* ================================================================== *)
(** * The service facade: [services/geminiService.ts] *)
(* ================================================================== *)

Module Facade.

(** ** Exceptions and completions *)

(** The exceptions that cross the facade: this application's
    [ApiKeyError] (a subclass of [Error] made only by [new ApiKeyError]),
    or any other error object, of which the facade reads [message] and
    [status]. *)
Inductive Exn :=
| ApiKeyError (message : jsstring)
| OtherError (message : jsstring) (status : option Z).

Definition message (error : Exn) : jsstring :=
  match error with
  | ApiKeyError m => m
  | OtherError m _ => m
  end.

Definition status (error : Exn) : option Z :=
  match error with
  | ApiKeyError _ => None
  | OtherError _ s => s
  end.

(** How a piece of code completes: it returns a value or throws. *)
Inductive Completion (A : Type) :=
| Return (a : A)
| Throw (error : Exn).
Arguments Return {A} a.
Arguments Throw {A} error.

Definition bind {A B} (c : Completion A) (k : A -> Completion B) : Completion B :=
  match c with
  | Return a => k a
  | Throw e => Throw e
  end.

(** [try { body } catch (error) { handler(error) }]. *)
Definition try_catch {A} (body : Completion A) (handler : Exn -> Completion A)
  : Completion A :=
  match body with
  | Return a => Return a
  | Throw error => handler error
  end.

Notation "x <- c ;; k" := (bind c (fun x => k))
  (at level 61, c at next level, right associativity).
Notation "c ;;; k" := (bind c (fun _ => k))
  (at level 61, right associativity).

(** What the awaited calls inside a [try] block did (encoding the file,
    calling the SDK, reading the response): they produced the value the
    function goes on with, or one of them threw an error object with the
    given [message] and [status]. *)
Inductive VendorOutcome (A : Type) :=
| Responds (a : A)
| Fails (message : jsstring) (status : option Z).
Arguments Responds {A} a.
Arguments Fails {A} message status.

Definition await {A} (v : VendorOutcome A) : Completion A :=
  match v with
  | Responds a => Return a
  | Fails m s => Throw (OtherError m s)
  end.

(** ** Credentials and error mapping *)

(** The SDK client; only the key it was built with matters here. *)
Record GoogleGenAI := { apiKey : option jsstring }.

Definition keyMissing (key : option jsstring) : bool :=
  match key with
  | Some k => negb (truthy k)
  | None => true
  end.

(** [getGenAI]: [process.env.API_KEY] is the argument. *)
Definition getGenAI (API_KEY : option jsstring) : Completion GoogleGenAI :=
  if keyMissing API_KEY
  then Throw (ApiKeyError (lit "API key is missing."))
  else Return {| apiKey := API_KEY |}.

(** [error.status && (error.status >= 400 && error.status < 500)]. *)
Definition clientErrorStatus (s : option Z) : bool :=
  match s with
  | Some n => negb (n =? 0)%Z && ((400 <=? n)%Z && (n <? 500)%Z)
  | None => false
  end.

(** The condition of [handleApiError]. *)
Definition keyProblem (error : Exn) : bool :=
  includes (message error) (lit "API key")
  || includes (message error) (lit "permission denied")
  || includes (message error) (lit "was not found")
  || clientErrorStatus (status error).

(** [handleApiError]: both branches throw. *)
Definition handleApiError (error : Exn) : Completion unit :=
  if keyProblem error
  then Throw (ApiKeyError (lit "API key is invalid or has insufficient permissions."))
  else Throw error.

(** ** Grounding sources *)

Record Web := { web_uri : option jsstring; web_title : option jsstring }.
Record GroundingChunk := { web : option Web }.
Record Source := { uri : option jsstring; title : option jsstring }.

(** [a || b] on values that are a string or [undefined]. *)
Definition or_else (a b : option jsstring) : option jsstring :=
  match a with
  | Some s => if truthy s then a else b
  | None => b
  end.

(** [a === b] on values that are a string or [undefined]. *)
Definition strict_eqb (a b : option jsstring) : bool :=
  match a, b with
  | Some x, Some y => JS.eqb x y
  | None, None => true
  | _, _ => false
  end.

(** [Array.prototype.findIndex]: the first index whose element satisfies
    [p], or [-1]; [i] is the index of the head of [l]. *)
Fixpoint findIndex_from {A} (p : A -> bool) (l : list A) (i : Z) : Z :=
  match l with
  | [] => (-1)%Z
  | x :: l' => if p x then i else findIndex_from p l' (i + 1)
  end.

Definition findIndex {A} (p : A -> bool) (l : list A) : Z := findIndex_from p l 0.

(** [Array.prototype.filter] with the index passed to the callback. *)
Fixpoint filter_from {A} (f : A -> Z -> bool) (l : list A) (i : Z) : list A :=
  match l with
  | [] => []
  | x :: l' => if f x i then x :: filter_from f l' (i + 1)
               else filter_from f l' (i + 1)
  end.

Definition filter_indexed {A} (f : A -> Z -> bool) (l : list A) : list A :=
  filter_from f l 0.

(** The chain of [generateGroundedContent]:
<<
  groundingChunks
    .map((chunk: any) => chunk.web)
    .filter(Boolean)
    .map((webChunk: any) => ({ uri: webChunk.uri, title: webChunk.title || webChunk.uri }))
    .filter((source, index, self) => index === self.findIndex(s => s.uri === source.uri));
>> *)
Definition webSources (groundingChunks : list GroundingChunk) : list Source :=
  map (fun webChunk =>
         {| uri := web_uri webChunk;
            title := or_else (web_title webChunk) (web_uri webChunk) |})
      (flat_map (fun chunk => match web chunk with
                              | Some w => [w]
                              | None => []
                              end) groundingChunks).

Definition dedupeSources (self : list Source) : list Source :=
  filter_indexed
    (fun source index =>
       (index =? findIndex (fun s => strict_eqb (uri s) (uri source)) self)%Z)
    self.

Definition groundingSourcesOf (groundingChunks : list GroundingChunk) : list Source :=
  dedupeSources (webSources groundingChunks).

(** ** The operations *)

Record GroundedResponse := {
  response_text : jsstring;
  response_groundingChunks : list GroundingChunk
}.

Record GroundedResult := {
  text : jsstring;
  groundingSources : list Source
}.

(** The handle of a video job, as the panel reads it: [done],
    [metadata?.progressPercent], [metadata?.state] and the URI of the
    first generated video. *)
Record GenerateVideosOperation := {
  done : option bool;
  progressPercent : option Z;
  state : option jsstring;
  videoUri : option jsstring
}.

Section Operations.

Variable API_KEY : option jsstring.

Definition generateText (vendor : VendorOutcome jsstring) : Completion jsstring :=
  try_catch
    (getGenAI API_KEY ;;; response <- await vendor ;; Return response)
    (fun error => handleApiError error ;;; Throw error).

Definition generateGroundedContent (vendor : VendorOutcome GroundedResponse)
  : Completion GroundedResult :=
  try_catch
    (getGenAI API_KEY ;;;
     response <- await vendor ;;
     Return {| text := response_text response;
               groundingSources :=
                 groundingSourcesOf (response_groundingChunks response) |})
    (fun error => handleApiError error ;;; Throw error).

Definition generateImage (vendor : VendorOutcome jsstring) : Completion jsstring :=
  try_catch
    (getGenAI API_KEY ;;;
     base64ImageBytes <- await vendor ;;
     Return (lit "data:image/png;base64," ++ base64ImageBytes))
    (fun error => handleApiError error ;;; Throw error).

Definition analyzeImage (vendor : VendorOutcome jsstring) : Completion jsstring :=
  try_catch
    (getGenAI API_KEY ;;; response <- await vendor ;; Return response)
    (fun error => handleApiError error ;;; Throw error).

Definition analyzeVideo (vendor : VendorOutcome jsstring) : Completion jsstring :=
  try_catch
    (getGenAI API_KEY ;;; response <- await vendor ;; Return response)
    (fun error => handleApiError error ;;; Throw error).

(** [generateVideo] and [checkVideoOperation] build the client with
    [new GoogleGenAI({ apiKey: process.env.API_KEY })] and do not go
    through [getGenAI]. *)
Definition generateVideo (vendor : VendorOutcome GenerateVideosOperation)
  : Completion GenerateVideosOperation :=
  try_catch
    (operation <- await vendor ;; Return operation)
    (fun error => handleApiError error ;;; Throw error).

Definition checkVideoOperation (vendor : VendorOutcome GenerateVideosOperation)
  : Completion GenerateVideosOperation :=
  try_catch
    (await vendor)
    (fun error => handleApiError error ;;; Throw error).

(** [transcribeAudio], [suggestPrompts] and [generateTts] end their
    [catch] with a [return] after [handleApiError(error)]. *)
Definition transcribeAudio (vendor : VendorOutcome jsstring) : Completion jsstring :=
  try_catch
    (getGenAI API_KEY ;;; response <- await vendor ;; Return response)
    (fun error => handleApiError error ;;; Return (lit "")).

Definition generateScriptStream (vendor : VendorOutcome (list Streaming.StreamEvent))
  : Completion (list Streaming.StreamEvent) :=
  try_catch
    (getGenAI API_KEY ;;; response <- await vendor ;; Return response)
    (fun error => handleApiError error ;;; Throw error).

Definition continueScriptStream (vendor : VendorOutcome (list Streaming.StreamEvent))
  : Completion (list Streaming.StreamEvent) :=
  try_catch
    (getGenAI API_KEY ;;; response <- await vendor ;; Return response)
    (fun error => handleApiError error ;;; Throw error).

(** The vendor outcome of [suggestPrompts] is the array [JSON.parse]
    yields from the cleaned response text. *)
Definition suggestPrompts (vendor : VendorOutcome (list jsstring))
  : Completion (list jsstring) :=
  try_catch
    (getGenAI API_KEY ;;; parsed <- await vendor ;; Return parsed)
    (fun error => handleApiError error ;;; Return []).

(** [return base64Audio || null]. *)
Definition generateTts (vendor : VendorOutcome (option jsstring))
  : Completion (option jsstring) :=
  try_catch
    (getGenAI API_KEY ;;;
     base64Audio <- await vendor ;;
     Return (or_else base64Audio None))
    (fun error => handleApiError error ;;; Return None).

End Operations.

(** The operations of the facade by name, with what the vendor side
    hands back ([Raw]) and what the caller receives ([Result]). *)
Inductive Operation :=
| GenerateText | GenerateGroundedContent | GenerateImage | AnalyzeImage
| AnalyzeVideo | GenerateVideo | CheckVideoOperation | TranscribeAudio
| GenerateScriptStream | ContinueScriptStream | SuggestPrompts | GenerateTts.

Definition Raw (op : Operation) : Type :=
  match op with
  | GenerateGroundedContent => GroundedResponse
  | GenerateVideo | CheckVideoOperation => GenerateVideosOperation
  | GenerateScriptStream | ContinueScriptStream => list Streaming.StreamEvent
  | SuggestPrompts => list jsstring
  | GenerateTts => option jsstring
  | _ => jsstring
  end.

Definition Result (op : Operation) : Type :=
  match op with
  | GenerateGroundedContent => GroundedResult
  | GenerateVideo | CheckVideoOperation => GenerateVideosOperation
  | GenerateScriptStream | ContinueScriptStream => list Streaming.StreamEvent
  | SuggestPrompts => list jsstring
  | GenerateTts => option jsstring
  | _ => jsstring
  end.

Definition run (API_KEY : option jsstring) (op : Operation)
  : VendorOutcome (Raw op) -> Completion (Result op) :=
  match op with
  | GenerateText => generateText API_KEY
  | GenerateGroundedContent => generateGroundedContent API_KEY
  | GenerateImage => generateImage API_KEY
  | AnalyzeImage => analyzeImage API_KEY
  | AnalyzeVideo => analyzeVideo API_KEY
  | GenerateVideo => generateVideo
  | CheckVideoOperation => checkVideoOperation
  | TranscribeAudio => transcribeAudio API_KEY
  | GenerateScriptStream => generateScriptStream API_KEY
  | ContinueScriptStream => continueScriptStream API_KEY
  | SuggestPrompts => suggestPrompts API_KEY
  | GenerateTts => generateTts API_KEY
  end.

(** The operations that obtain their client from [getGenAI]. *)
Definition usesGetGenAI (op : Operation) : bool :=
  match op with
  | GenerateVideo | CheckVideoOperation => false
  | _ => true
  end.

Definition throwsApiKeyError {A} (c : Completion A) : bool :=
  match c with
  | Throw (ApiKeyError _) => true
  | _ => false
  end.

(** The credential failures as the specification words them: an
    authorization or permission problem reported by the vendor, or a
    client-error status. *)
Definition authorizationProblem (message : jsstring) : bool :=
  includes message (lit "API key") || includes message (lit "permission denied").

Definition specCredentialFailure {A} (API_KEY : option jsstring)
    (v : VendorOutcome A) : bool :=
  keyMissing API_KEY
  || match v with
     | Responds _ => false
     | Fails m s => authorizationProblem m || clientErrorStatus s
     end.

(** The panel of [TranscribeView]: the text [handleTranscription] leaves
    in the [transcription] state. *)
Definition handleTranscription (API_KEY : option jsstring)
    (vendor : VendorOutcome jsstring) : jsstring :=
  match transcribeAudio API_KEY vendor with
  | Return result => result
  | Throw _ => lit "Sorry, an error occurred during transcription."
  end.

(** Grounding sources as the specification words them: going through the
    list in order, a source is kept when no earlier source has its URI. *)
Fixpoint keepFirstByUri (earlier l : list Source) : list Source :=
  match l with
  | [] => []
  | s :: l' =>
      if existsb (fun e => strict_eqb (uri e) (uri s)) earlier
      then keepFirstByUri (earlier ++ [s]) l'
      else s :: keepFirstByUri (earlier ++ [s]) l'
  end.

(** [l1] is [l2] with some elements left out, the order kept. *)
Inductive subseq {A} : list A -> list A -> Prop :=
| subseq_nil : subseq [] []
| subseq_skip x l1 l2 : subseq l1 l2 -> subseq l1 (x :: l2)
| subseq_keep x l1 l2 : subseq l1 l2 -> subseq (x :: l1) (x :: l2).

(** The error [handleApiError] throws for a key problem. *)
Definition invalidKey : Exn :=
  ApiKeyError (lit "API key is invalid or has insufficient permissions.").

(** ** Error mapping *)

Lemma handleApiError_always_throws error :
  exists thrown, handleApiError error = Throw thrown.
Proof. unfold handleApiError. destruct (keyProblem error); eauto. Qed.

Lemma keyProblem_missing_key :
  keyProblem (ApiKeyError (lit "API key is missing.")) = true.
Proof. reflexivity. Qed.

Lemma getGenAI_missing API_KEY :
  keyMissing API_KEY = true ->
  getGenAI API_KEY = Throw (ApiKeyError (lit "API key is missing.")).
Proof. unfold getGenAI. now intros ->. Qed.

Lemma getGenAI_present API_KEY :
  keyMissing API_KEY = false ->
  getGenAI API_KEY = Return {| apiKey := API_KEY |}.
Proof. unfold getGenAI. now intros ->. Qed.

Lemma run_missing_key API_KEY op v :
  usesGetGenAI op = true -> keyMissing API_KEY = true ->
  run API_KEY op v = Throw invalidKey.
Proof.
  intros Hop Hkey.
  destruct op; try discriminate Hop; simpl;
    unfold generateText, generateGroundedContent, generateImage, analyzeImage,
      analyzeVideo, transcribeAudio, generateScriptStream, continueScriptStream,
      suggestPrompts, generateTts;
    rewrite (getGenAI_missing _ Hkey); reflexivity.
Qed.

Lemma run_fails API_KEY op m s :
  usesGetGenAI op && keyMissing API_KEY = false ->
  run API_KEY op (Fails m s)
  = if keyProblem (OtherError m s) then Throw invalidKey
    else Throw (OtherError m s).
Proof.
  intros H.
  assert (E : forall A (k : Completion A) (h : Exn -> Completion A),
             usesGetGenAI op = true ->
             try_catch (getGenAI API_KEY ;;; k) h = try_catch k h).
  { intros A k h Hop. rewrite Hop in H. simpl in H.
    now rewrite (getGenAI_present _ H). }
  destruct op; simpl;
    unfold generateText, generateGroundedContent, generateImage, analyzeImage,
      analyzeVideo, transcribeAudio, generateScriptStream, continueScriptStream,
      suggestPrompts, generateTts, generateVideo, checkVideoOperation;
    rewrite ?E by reflexivity; simpl; unfold handleApiError;
    destruct (keyProblem (OtherError m s)); reflexivity.
Qed.

Lemma run_responds_not_thrown API_KEY op a :
  usesGetGenAI op && keyMissing API_KEY = false ->
  exists r, run API_KEY op (Responds a) = Return r.
Proof.
  intros H.
  assert (E : forall A (k : Completion A) (h : Exn -> Completion A),
             usesGetGenAI op = true ->
             try_catch (getGenAI API_KEY ;;; k) h = try_catch k h).
  { intros A k h Hop. rewrite Hop in H. simpl in H.
    now rewrite (getGenAI_present _ H). }
  destruct op; simpl;
    unfold generateText, generateGroundedContent, generateImage, analyzeImage,
      analyzeVideo, transcribeAudio, generateScriptStream, continueScriptStream,
      suggestPrompts, generateTts, generateVideo, checkVideoOperation;
    rewrite ?E by reflexivity; simpl; eauto.
Qed.

(** C5, as stated, fails: a failure whose message says that something
    "was not found", with no status, is neither an authorization or
    permission problem nor a client-error status, yet [generateText]
    turns it into an [ApiKeyError]. *)
Lemma credential_error_not_exactly_as_specified :
  ~ (forall (API_KEY : option jsstring) (op : Operation) (v : VendorOutcome (Raw op)),
       throwsApiKeyError (run API_KEY op v) = specCredentialFailure API_KEY v).
Proof.
  intros H.
  specialize (H (Some (lit "k")) GenerateText
                (Fails (lit "Requested entity was not found.") None)).
  vm_compute in H. discriminate H.
Qed.

(** The other direction fails too: [generateVideo] does not check for a
    credential, so with none configured the result is whatever the SDK
    call gives. *)
Example generateVideo_without_credential :
  let operation := {| done := Some false; progressPercent := None;
                      state := None; videoUri := None |} in
  run None GenerateVideo (Responds operation) = Return operation
  /\ run None GenerateVideo (Fails (lit "Failed to fetch") None)
     = Throw (OtherError (lit "Failed to fetch") None).
Proof. split; reflexivity. Qed.

(** C5, amended.  An operation of the facade throws an [ApiKeyError]
    exactly when it obtains its client from [getGenAI] and no credential
    is configured, or when the failure inside its [try] block has a
    message containing "API key", "permission denied" or "was not found",
    or a status from 400 to 499.  The [ApiKeyError] always carries the
    message "API key is invalid or has insufficient permissions.".  Every
    other failure reaches the caller unchanged, and a response is never
    turned into an exception. *)
Theorem facade_credential_errors
    (API_KEY : option jsstring) (op : Operation) (v : VendorOutcome (Raw op)) :
  throwsApiKeyError (run API_KEY op v)
  = (usesGetGenAI op && keyMissing API_KEY
     || match v with
        | Responds _ => false
        | Fails m s =>
            includes m (lit "API key")
            || includes m (lit "permission denied")
            || includes m (lit "was not found")
            || match s with
               | Some n => (400 <=? n)%Z && (n <? 500)%Z
               | None => false
               end
        end)
  /\ (forall m, run API_KEY op v = Throw (ApiKeyError m) ->
                m = lit "API key is invalid or has insufficient permissions.")
  /\ (forall m s, v = Fails m s ->
                  throwsApiKeyError (run API_KEY op v) = false ->
                  run API_KEY op v = Throw (OtherError m s))
  /\ (forall a, v = Responds a ->
                usesGetGenAI op && keyMissing API_KEY = false ->
                exists r, run API_KEY op v = Return r).
Proof.
  assert (Hstatus : forall s,
            clientErrorStatus s
            = match s with
              | Some n => (400 <=? n)%Z && (n <? 500)%Z
              | None => false
              end).
  { intros [n|]; [|reflexivity]. unfold clientErrorStatus.
    destruct (Z.eqb_spec n 0) as [->|]; reflexivity. }
  destruct (usesGetGenAI op && keyMissing API_KEY) eqn:Hgate.
  - apply andb_true_iff in Hgate. destruct Hgate as [Hop Hkey].
    rewrite (@run_missing_key API_KEY op v Hop Hkey). simpl.
    repeat split; try discriminate.
    intros m E. now inversion E.
  - destruct v as [a | m s].
    + destruct (@run_responds_not_thrown API_KEY op a Hgate) as [r E]. rewrite E. simpl.
      repeat split; try discriminate. eauto.
    + rewrite (@run_fails API_KEY op m s Hgate). unfold keyProblem. simpl.
      rewrite Hstatus.
      destruct (includes m (lit "API key") || includes m (lit "permission denied")
                || includes m (lit "was not found")
                || match s with
                   | Some n => (400 <=? n)%Z && (n <? 500)%Z
                   | None => false
                   end); simpl; repeat split; try discriminate.
      * intros m' E. now inversion E.
      * intros m' s' E _. now inversion E.
Qed.

(** C4 fails on the code.  When the vendor call of [transcribeAudio]
    throws, [handleApiError] throws in turn, the [return ''] after it is
    never reached, and the caller receives an exception: the same error,
    or an [ApiKeyError] when the failure looks like a key problem.  The
    transcription panel then shows its error text, not an empty string. *)
Theorem transcribeAudio_failure_is_thrown
    (API_KEY : option jsstring) (m : jsstring) (s : option Z) :
  transcribeAudio API_KEY (Fails m s) <> Return (lit "")
  /\ (exists error, transcribeAudio API_KEY (Fails m s) = Throw error)
  /\ handleTranscription API_KEY (Fails m s)
     = lit "Sorry, an error occurred during transcription."
  /\ transcribeAudio (Some (lit "key")) (Fails (lit "Network error") None)
     = Throw (OtherError (lit "Network error") None).
Proof.
  assert (E : exists error, transcribeAudio API_KEY (Fails m s) = Throw error).
  { destruct (keyMissing API_KEY) eqn:Hkey.
    - exists invalidKey.
      exact (@run_missing_key API_KEY TranscribeAudio (Fails m s) eq_refl Hkey).
    - pose proof (@run_fails API_KEY TranscribeAudio m s) as R.
      simpl in R. rewrite Hkey in R. specialize (R eq_refl).
      destruct (keyProblem (OtherError m s)); eauto. }
  destruct E as [error E]. unfold handleTranscription. rewrite E.
  repeat split; try discriminate; eauto.
Qed.

(** ** De-duplication of grounding sources *)

Lemma strict_eqb_eq a b : strict_eqb a b = true <-> a = b.
Proof.
  destruct a as [x|], b as [y|]; simpl; try (split; discriminate); [|tauto].
  rewrite JS.eqb_eq. split; [now intros -> | now intros [= ->]].
Qed.

Lemma strict_eqb_refl a : strict_eqb a a = true.
Proof. now apply strict_eqb_eq. Qed.

Section FindIndex.

Context {A : Type} (p : A -> bool).

Lemma findIndex_from_hit pre x post i :
  existsb p pre = false -> p x = true ->
  findIndex_from p (pre ++ x :: post) i = (i + Z.of_nat (length pre))%Z.
Proof.
  revert i; induction pre as [|y pre IH]; intros i Hpre Hx; simpl.
  - rewrite Hx. lia.
  - simpl in Hpre. apply orb_false_iff in Hpre. destruct Hpre as [Hy Hpre].
    rewrite Hy, IH by assumption. lia.
Qed.

Lemma findIndex_from_early pre rest i :
  existsb p pre = true ->
  (i <= findIndex_from p (pre ++ rest) i < i + Z.of_nat (length pre))%Z.
Proof.
  revert i; induction pre as [|y pre IH]; intros i Hpre; simpl in *.
  - discriminate.
  - destruct (p y); [lia|]. simpl in Hpre. specialize (IH (i + 1)%Z Hpre). lia.
Qed.

End FindIndex.

Lemma dedupe_from_keepFirst (earlier l : list Source) :
  filter_from
    (fun source index =>
       (index =? findIndex (fun s => strict_eqb (uri s) (uri source)) (earlier ++ l))%Z)
    l (Z.of_nat (length earlier))
  = keepFirstByUri earlier l.
Proof.
  revert earlier; induction l as [|s l IH]; intros earlier; simpl; [reflexivity|].
  specialize (IH (earlier ++ [s])).
  rewrite <- app_assoc, length_app in IH. simpl in IH.
  replace (Z.of_nat (length earlier + 1)) with (Z.of_nat (length earlier) + 1)%Z
    in IH by lia.
  rewrite IH. unfold findIndex.
  destruct (existsb (fun e => strict_eqb (uri e) (uri s)) earlier) eqn:E.
  - pose proof (findIndex_from_early _ earlier (s :: l) 0 E) as B.
    destruct (Z.eqb_spec (Z.of_nat (length earlier))
                (findIndex_from (fun s0 => strict_eqb (uri s0) (uri s))
                   (earlier ++ s :: l) 0)); [lia | reflexivity].
  - rewrite (findIndex_from_hit _ earlier s l 0 E (strict_eqb_refl _)).
    now rewrite Z.add_0_l, Z.eqb_refl.
Qed.

Lemma dedupeSources_keepFirst (self : list Source) :
  dedupeSources self = keepFirstByUri [] self.
Proof. exact (dedupe_from_keepFirst [] self). Qed.

Lemma keepFirst_subseq l : forall earlier, subseq (keepFirstByUri earlier l) l.
Proof.
  induction l as [|s l IH]; intros earlier; simpl; [constructor|].
  destruct (existsb _ earlier); constructor; apply IH.
Qed.

Lemma existsb_uri earlier u :
  existsb (fun e => strict_eqb (uri e) u) earlier = true <-> In u (map uri earlier).
Proof.
  rewrite existsb_exists, in_map_iff. split.
  - intros [e [He E]]. apply strict_eqb_eq in E. eauto.
  - intros [e [E He]]. exists e. split; [assumption|]. now apply strict_eqb_eq.
Qed.

Lemma keepFirst_uris l : forall earlier u,
  In u (map uri (keepFirstByUri earlier l))
  <-> In u (map uri l) /\ ~ In u (map uri earlier).
Proof.
  induction l as [|s l IH]; intros earlier u; simpl; [tauto|].
  assert (Hearlier : In u (map uri (earlier ++ [s]))
                     <-> In u (map uri earlier) \/ uri s = u).
  { rewrite map_app, in_app_iff. simpl. tauto. }
  destruct (existsb (fun e => strict_eqb (uri e) (uri s)) earlier) eqn:E; simpl;
    rewrite IH, Hearlier.
  - apply existsb_uri in E. split; [tauto|].
    intros [[<- | H] N]; [tauto|].
    split; [assumption|]. intros [? | <-]; tauto.
  - assert (N : ~ In (uri s) (map uri earlier)).
    { intros H. apply existsb_uri in H. congruence. }
    destruct (strict_eqb (uri s) u) eqn:U.
    + apply strict_eqb_eq in U. subst u. tauto.
    + assert (uri s <> u) by (intros H; apply strict_eqb_eq in H; congruence).
      tauto.
Qed.

Lemma keepFirst_NoDup l : forall earlier,
  NoDup (map uri (keepFirstByUri earlier l)).
Proof.
  induction l as [|s l IH]; intros earlier; simpl; [constructor|].
  destruct (existsb _ earlier); [apply IH|]. simpl. constructor; [|apply IH].
  rewrite keepFirst_uris, map_app, in_app_iff. simpl. tauto.
Qed.



End Facade.

(* ================================================================== *)
(** * Capped histories: [ImageGenieView.handleSubmit] and
      [ScriptGenieView.saveScriptToHistory] *)
(* ================================================================== *)

Module History.

Record ImageHistoryEntry := {
  image_id : Z;
  image_prompt : jsstring;
  imageUrl : jsstring
}.

Inductive MediaType := image | video.

Record AnalysisHistoryEntry := {
  analysis_id : Z;
  analysis_prompt : jsstring;
  result : jsstring;
  imageThumbnail : jsstring;
  originalImage : jsstring;
  mediaType : MediaType
}.

Record ScriptVersion := {
  timestamp : Z;
  script : jsstring
}.

(** [arr.slice(0, n)]. *)
Definition slice0 {A} (n : nat) (arr : list A) : list A := firstn n arr.

(** Generate mode of [ImageGenieView.handleSubmit]:
    [updateHistory([newEntry, ...history].slice(0, 10))].  The list is
    both the new [history] state and the value stored under
    [imageGenieHistory]. *)
Definition saveImageToHistory (newEntry : ImageHistoryEntry)
    (history : list ImageHistoryEntry) : list ImageHistoryEntry :=
  slice0 10 (newEntry :: history).

(** Analyze mode:
    [updateAnalysisHistory([newEntry, ...analysisHistory].slice(0, 10))]. *)
Definition saveAnalysisToHistory (newEntry : AnalysisHistoryEntry)
    (analysisHistory : list AnalysisHistoryEntry) : list AnalysisHistoryEntry :=
  slice0 10 (newEntry :: analysisHistory).

(** [saveScriptToHistory]: [key] is the result of [getHistoryKey()],
    [now] the value of [Date.now()].  Nothing is saved without a key or
    for an empty script. *)
Definition saveScriptToHistory (key : option jsstring) (now : Z)
    (script : jsstring) (prevHistory : list ScriptVersion) : list ScriptVersion :=
  match key with
  | None => prevHistory
  | Some k =>
      if negb (truthy k) || negb (truthy script) then prevHistory
      else
        let newEntry := {| timestamp := now; script := script |} in
        slice0 10 (newEntry :: prevHistory)
  end.

(** Saving [newEntry] turned [before] into [after]: ten entries, the new
    one first, then the entries of [before] in their order, all but the
    last one. *)
Definition evictsOldest {A} (newEntry : A) (before after : list A) : Prop :=
  length after = 10%nat
  /\ hd_error after = Some newEntry
  /\ after = newEntry :: removelast before
  /\ (forall i d, (i < 9)%nat -> nth (S i) after d = nth i before d)
  /\ (NoDup (newEntry :: before) -> ~ In (last before newEntry) after).

(** Ten stored entries of each kind, numbered 1 to 10 from the newest. *)
Definition tenImages : list ImageHistoryEntry :=
  map (fun n => {| image_id := Z.of_nat n; image_prompt := lit "p";
                   imageUrl := lit "data:image/png;base64,AA==" |}) (seq 1 10).

Definition tenAnalyses : list AnalysisHistoryEntry :=
  map (fun n => {| analysis_id := Z.of_nat n; analysis_prompt := lit "p";
                   result := lit "r"; imageThumbnail := lit "t";
                   originalImage := lit "o"; mediaType := image |}) (seq 1 10).

Definition tenVersions : list ScriptVersion :=
  map (fun n => {| timestamp := Z.of_nat n; script := lit "s" |}) (seq 1 10).

Section Capped.

Context {A : Type}.

Lemma slice0_full (newEntry : A) (history : list A) :
  length history = 10%nat ->
  slice0 10 (newEntry :: history) = newEntry :: removelast history.
Proof.
  intros H. unfold slice0. rewrite firstn_cons. f_equal.
  rewrite removelast_firstn_len, H. reflexivity.
Qed.

Lemma removelast_length (l : list A) :
  length (removelast l) = pred (length l).
Proof.
  rewrite removelast_firstn_len, length_firstn. lia.
Qed.

Lemma removelast_prefix (l : list A) (i : nat) (d : A) :
  (i < pred (length l))%nat -> nth i (removelast l) d = nth i l d.
Proof.
  intros H. rewrite removelast_firstn_len.
  rewrite <- (firstn_skipn (pred (length l)) l) at 3.
  rewrite app_nth1; [reflexivity|]. rewrite length_firstn. lia.
Qed.

Lemma last_not_in_removelast (l : list A) (d : A) :
  NoDup l -> l <> [] -> ~ In (last l d) (removelast l).
Proof.
  intros N Hne Hin.
  rewrite (app_removelast_last d Hne) in N.
  apply NoDup_remove_2 in N. apply N. rewrite app_nil_r. exact Hin.
Qed.

Lemma last_in (l : list A) (d : A) : l <> [] -> In (last l d) l.
Proof.
  intros Hne. rewrite (app_removelast_last d Hne) at 2.
  apply in_or_app. right. left. reflexivity.
Qed.

(** What saving into a full history does, for any kind of entry. *)
Lemma capped_save (newEntry : A) (history : list A) :
  length history = 10%nat ->
  let saved := slice0 10 (newEntry :: history) in
  length saved = 10%nat
  /\ saved = newEntry :: removelast history
  /\ (forall i d, (i < 9)%nat -> nth (S i) saved d = nth i history d)
  /\ (NoDup (newEntry :: history) -> ~ In (last history newEntry) saved).
Proof.
  intros H. cbv zeta. rewrite (slice0_full _ _ H).
  split; [simpl; rewrite removelast_length, H; reflexivity|].
  split; [reflexivity|].
  split.
  - intros i d Hi. simpl. apply removelast_prefix. lia.
  - intros N Hin.
    assert (Hne : history <> []) by (intros ->; discriminate H).
    inversion N as [|? ? Hnew Nh]; subst.
    destruct Hin as [E | Hin].
    + apply Hnew. rewrite E. now apply last_in.
    + now apply (@last_not_in_removelast history newEntry).
Qed.

End Capped.

(** C7.  Saving into a history that already holds ten entries (image
    generation, image or video analysis, script versions) gives ten
    entries: the new one first, followed by the previous entries in their
    order without the oldest, which was the last one; when the entries
    are pairwise distinct the oldest no longer occurs. *)
Theorem history_eviction
    (newImage : ImageHistoryEntry) (history : list ImageHistoryEntry)
    (newAnalysis : AnalysisHistoryEntry) (analysisHistory : list AnalysisHistoryEntry)
    (key script : jsstring) (now : Z) (prevHistory : list ScriptVersion) :
  length history = 10%nat ->
  length analysisHistory = 10%nat ->
  length prevHistory = 10%nat ->
  truthy key = true -> truthy script = true ->
  evictsOldest newImage history (saveImageToHistory newImage history)
  /\ evictsOldest newAnalysis analysisHistory
       (saveAnalysisToHistory newAnalysis analysisHistory)
  /\ evictsOldest {| timestamp := now; script := script |} prevHistory
       (saveScriptToHistory (Some key) now script prevHistory).
Proof.
  intros Hi Ha Hs Hkey Hscript.
  unfold saveImageToHistory, saveAnalysisToHistory, saveScriptToHistory.
  rewrite Hkey, Hscript. simpl negb. simpl orb.
  pose proof (capped_save newImage history Hi) as [I1 [I2 [I3 I4]]].
  pose proof (capped_save newAnalysis analysisHistory Ha) as [A1 [A2 [A3 A4]]].
  pose proof (capped_save {| timestamp := now; script := script |} prevHistory Hs)
    as [S1 [S2 [S3 S4]]].
  unfold evictsOldest.
  repeat split; trivial; try (rewrite I2; reflexivity);
    try (rewrite A2; reflexivity); rewrite S2; reflexivity.
Qed.

Lemma history_eviction_witness :
  evictsOldest {| image_id := 11; image_prompt := lit "q"; imageUrl := lit "u" |}
    tenImages
    (saveImageToHistory
       {| image_id := 11; image_prompt := lit "q"; imageUrl := lit "u" |} tenImages)
  /\ evictsOldest
       {| analysis_id := 11; analysis_prompt := lit "q"; result := lit "r";
          imageThumbnail := lit "t"; originalImage := lit "o"; mediaType := video |}
       tenAnalyses
       (saveAnalysisToHistory
          {| analysis_id := 11; analysis_prompt := lit "q"; result := lit "r";
             imageThumbnail := lit "t"; originalImage := lit "o"; mediaType := video |}
          tenAnalyses)
  /\ evictsOldest {| timestamp := 11; script := lit "new" |} tenVersions
       (saveScriptToHistory (Some (lit "script-history:k")) 11 (lit "new") tenVersions).
Proof.
  apply (@history_eviction
           {| image_id := 11; image_prompt := lit "q"; imageUrl := lit "u" |}
           tenImages
           {| analysis_id := 11; analysis_prompt := lit "q"; result := lit "r";
              imageThumbnail := lit "t"; originalImage := lit "o"; mediaType := video |}
           tenAnalyses (lit "script-history:k") (lit "new") 11%Z tenVersions);
    reflexivity.
Defined.

End History.

(* ================================================================== *)
(** * The video job poller: [VideoFactoryView.pollOperation] *)
(* ================================================================== *)

Module VideoFactory.

Import Facade.

(** The texts [setLoadingMessage] receives in [pollOperation]. *)
Inductive LoadingMessage :=
| Rendering (percent : Z)     (* `Rendering video... ${percent}% complete.` *)
| Processing                  (* "The model is processing your video request..." *)
| WaitingToStart              (* "Waiting for generation to start..." *)
| Finalizing.                 (* "Finalizing video and preparing for download..." *)

(** What [pollOperation] does to the outside, in order. *)
Inductive Effect :=
| Sleep (ms : Z)
| Poll (operation : GenerateVideosOperation)
| SetProgress (percent : Z)
| SetLoadingMessage (m : LoadingMessage)
| ConsoleError.

(** How far the wait got: it returned the finished handle, it threw, or
    the vendor's answers so far left it still waiting on [current]. *)
Inductive PollOutcome :=
| Returned (final : GenerateVideosOperation)
| Threw (error : Exn)
| StillWaiting (current : GenerateVideosOperation).

(** [currentOperation.done] as a condition. *)
Definition isDone (operation : GenerateVideosOperation) : bool :=
  match done operation with
  | Some b => b
  | None => false
  end.

(** A number as a condition: [undefined] and [0] are falsy. *)
Definition truthyNumber (n : option Z) : bool :=
  match n with
  | Some p => negb (p =? 0)%Z
  | None => false
  end.

(** The [if / else if / else] after a successful poll. *)
Definition surface (currentOperation : GenerateVideosOperation) : list Effect :=
  let otherwise :=
    if strict_eqb (state currentOperation) (Some (lit "PROCESSING"))
    then [SetLoadingMessage Processing]
    else [SetLoadingMessage WaitingToStart] in
  match progressPercent currentOperation with
  | Some percent =>
      if truthyNumber (Some percent)
      then [SetProgress percent; SetLoadingMessage (Rendering percent)]
      else otherwise
  | None => otherwise
  end.

(** [pollOperation]: [responses] lists what the vendor side does at each
    successive call of [checkVideoOperation]; the loop consumes one per
    iteration.
<<
  let currentOperation = operation;
  while (!currentOperation.done) {
    await new Promise(resolve => setTimeout(resolve, 10000));
    try {
      currentOperation = await checkVideoOperation(currentOperation);
      if (currentOperation.metadata?.progressPercent) { ... }
      else if (currentOperation.metadata?.state === 'PROCESSING') { ... }
      else { ... }
    } catch (err) { console.error("Polling failed", err); throw err; }
  }
  setProgress(100);
  setLoadingMessage("Finalizing video and preparing for download...");
  return currentOperation;
>> *)
Fixpoint pollOperation (responses : list (VendorOutcome GenerateVideosOperation))
    (currentOperation : GenerateVideosOperation) : PollOutcome * list Effect :=
  if isDone currentOperation
  then (Returned currentOperation, [SetProgress 100; SetLoadingMessage Finalizing])
  else
    match responses with
    | [] => (StillWaiting currentOperation, [])
    | vendor :: later =>
        match checkVideoOperation vendor with
        | Return polled =>
            let (outcome, effects) := pollOperation later polled in
            (outcome,
             Sleep 10000 :: Poll currentOperation :: surface polled ++ effects)
        | Throw err =>
            (Threw err, [Sleep 10000; Poll currentOperation; ConsoleError])
        end
    end.

(** The number of calls of [checkVideoOperation] in a run. *)
Fixpoint pollCalls (effects : list Effect) : nat :=
  match effects with
  | [] => 0
  | Poll _ :: rest => S (pollCalls rest)
  | _ :: rest => pollCalls rest
  end.

(** The values passed to [setProgress], in order. *)
Fixpoint progressLog (effects : list Effect) : list Z :=
  match effects with
  | [] => []
  | SetProgress p :: rest => p :: progressLog rest
  | _ :: rest => progressLog rest
  end.

(** The progress values the vendor reports, one for each answer that
    carries a non-zero [progressPercent]. *)
Definition reportedProgress (responses : list (VendorOutcome GenerateVideosOperation))
  : list Z :=
  flat_map (fun v => match v with
                     | Responds operation =>
                         match progressPercent operation with
                         | Some p => if (p =? 0)%Z then [] else [p]
                         | None => []
                         end
                     | Fails _ _ => []
                     end) responses.

(** [l] never decreases from one element to the next. *)
Fixpoint nonDecreasing (l : list Z) : bool :=
  match l with
  | x :: (y :: _) as rest => (x <=? y)%Z && nonDecreasing rest
  | _ => true
  end.

(** The handles in [waiting] all report that the job is not done. *)
Definition pending (waiting : list GenerateVideosOperation) : Prop :=
  Forall (fun operation => isDone operation = false) waiting.

(** The shape of a run: which answers were consumed and how it ended. *)
Definition exitsAsSpecified
    (responses : list (VendorOutcome GenerateVideosOperation))
    (operation : GenerateVideosOperation)
    (run : PollOutcome * list Effect) : Prop :=
  match fst run with
  | Returned final =>
      isDone final = true
      /\ exists seen waiting later,
           responses = map Responds seen ++ later
           /\ operation :: seen = waiting ++ [final]
           /\ pending waiting
           /\ pollCalls (snd run) = length seen
           /\ forall later', pollOperation (map Responds seen ++ later') operation = run
  | Threw error =>
      exists seen m s later,
        responses = map Responds seen ++ Fails m s :: later
        /\ pending (operation :: seen)
        /\ checkVideoOperation (Fails m s) = Throw error
        /\ pollCalls (snd run) = S (length seen)
        /\ forall later',
             pollOperation (map Responds seen ++ Fails m s :: later') operation = run
  | StillWaiting current =>
      exists seen waiting,
        responses = map Responds seen
        /\ operation :: seen = waiting ++ [current]
        /\ pending (operation :: seen)
        /\ pollCalls (snd run) = length seen
  end.

(** The closing [setProgress(100)] of a run that returned. *)
Definition closing (outcome : PollOutcome) : list Z :=
  match outcome with
  | Returned _ => [100%Z]
  | _ => []
  end.

(** The scenario of the specification: progress 0, then 50, then done. *)
Definition zeroFiftyDone : list (VendorOutcome GenerateVideosOperation) :=
  [ Responds {| done := Some false; progressPercent := Some 0%Z;
                state := None; videoUri := None |};
    Responds {| done := Some false; progressPercent := Some 50%Z;
                state := Some (lit "PROCESSING"); videoUri := None |};
    Responds {| done := Some true; progressPercent := None;
                state := None; videoUri := Some (lit "https://v/1") |} ].

Definition submitted : GenerateVideosOperation :=
  {| done := None; progressPercent := None; state := None; videoUri := None |}.

(** ** Exits of the wait loop *)

Lemma checkVideoOperation_responds operation :
  checkVideoOperation (Responds operation) = Return operation.
Proof. reflexivity. Qed.

Lemma checkVideoOperation_fails m s :
  exists error, checkVideoOperation (Fails m s) = Throw error.
Proof.
  unfold checkVideoOperation. simpl. unfold handleApiError.
  destruct (keyProblem (OtherError m s)); eexists; reflexivity.
Qed.

Lemma pollOperation_done responses operation :
  isDone operation = true ->
  pollOperation responses operation
  = (Returned operation, [SetProgress 100; SetLoadingMessage Finalizing]).
Proof. intros H. destruct responses; simpl; now rewrite H. Qed.

Lemma pollOperation_step vendor later operation :
  isDone operation = false ->
  pollOperation (vendor :: later) operation
  = match checkVideoOperation vendor with
    | Return polled =>
        let (outcome, effects) := pollOperation later polled in
        (outcome, Sleep 10000 :: Poll operation :: surface polled ++ effects)
    | Throw err => (Threw err, [Sleep 10000; Poll operation; ConsoleError])
    end.
Proof. intros H. simpl. now rewrite H. Qed.

Lemma pollCalls_app e1 e2 : pollCalls (e1 ++ e2) = (pollCalls e1 + pollCalls e2)%nat.
Proof.
  induction e1 as [|e e1 IH]; simpl; [reflexivity|].
  destruct e; simpl; rewrite IH; reflexivity.
Qed.

Lemma pollCalls_surface polled : pollCalls (surface polled) = 0%nat.
Proof.
  unfold surface.
  destruct (progressPercent polled) as [p|]; [destruct (truthyNumber (Some p))|];
    try destruct (strict_eqb _ _); reflexivity.
Qed.

(** C3.  The wait loop returns only a handle that reports done, after
    polling exactly as long as the handles it saw were not done and
    without consuming any later answer; it throws only when a poll
    raised, at that very poll and with the error [checkVideoOperation]
    threw; as long as every answer is a handle that is not done, it is
    still waiting. *)
Theorem poll_loop_exits
    (responses : list (VendorOutcome GenerateVideosOperation))
    (operation : GenerateVideosOperation) :
  exitsAsSpecified responses operation (pollOperation responses operation).
Proof.
  revert operation. induction responses as [|vendor later IH]; intros operation.
  - unfold exitsAsSpecified. simpl. destruct (isDone operation) eqn:D; simpl.
    + split; [assumption|]. exists [], [], []. repeat split; try constructor.
      intros later'. now apply pollOperation_done.
    + exists [], []. repeat split. constructor; [assumption | constructor].
  - destruct (isDone operation) eqn:D.
    + rewrite (pollOperation_done _ _ D). unfold exitsAsSpecified. simpl.
      split; [assumption|]. exists [], [], (vendor :: later).
      repeat split; try constructor.
      intros later'. now apply pollOperation_done.
    + rewrite (pollOperation_step _ _ _ D).
      destruct vendor as [polled | m s].
      * rewrite checkVideoOperation_responds. specialize (IH polled).
        destruct (pollOperation later polled) as [outcome effects] eqn:R.
        unfold exitsAsSpecified in *. simpl fst in *. simpl snd in *.
        assert (Calls : pollCalls (Sleep 10000 :: Poll operation
                                   :: surface polled ++ effects)
                        = S (pollCalls effects)).
        { simpl. now rewrite pollCalls_app, pollCalls_surface. }
        destruct outcome as [final | error | current].
        -- destruct IH as [F [seen [waiting [later0 [E1 [E2 [P [C I]]]]]]]].
           split; [assumption|].
           exists (polled :: seen), (operation :: waiting), later0.
           repeat split.
           ++ simpl. now rewrite E1.
           ++ simpl. now rewrite E2.
           ++ constructor; assumption.
           ++ rewrite Calls, C. reflexivity.
           ++ intros later'. simpl map. rewrite <- app_comm_cons.
              rewrite (pollOperation_step _ _ _ D), checkVideoOperation_responds.
              now rewrite I.
        -- destruct IH as [seen [m [s [later0 [E1 [P [T [C I]]]]]]]].
           exists (polled :: seen), m, s, later0.
           repeat split.
           ++ simpl. now rewrite E1.
           ++ constructor; assumption.
           ++ assumption.
           ++ rewrite Calls, C. reflexivity.
           ++ intros later'. simpl map. rewrite <- app_comm_cons.
              rewrite (pollOperation_step _ _ _ D), checkVideoOperation_responds.
              now rewrite I.
        -- destruct IH as [seen [waiting [E1 [E2 [P C]]]]].
           exists (polled :: seen), (operation :: waiting).
           repeat split.
           ++ simpl. now rewrite E1.
           ++ simpl. now rewrite E2.
           ++ constructor; assumption.
           ++ rewrite Calls, C. reflexivity.
      * destruct (checkVideoOperation_fails m s) as [error T]. rewrite T.
        unfold exitsAsSpecified. simpl.
        exists [], m, s, later. repeat split; trivial.
        -- constructor; [assumption | constructor].
        -- intros later'. simpl.
           rewrite D. unfold checkVideoOperation in *. simpl in *. now rewrite T.
Qed.

(** ** Progress *)

Lemma progressLog_app e1 e2 :
  progressLog (e1 ++ e2) = progressLog e1 ++ progressLog e2.
Proof.
  induction e1 as [|e e1 IH]; simpl; [reflexivity|].
  destruct e; simpl; rewrite IH; reflexivity.
Qed.

Lemma progressLog_surface polled :
  progressLog (surface polled)
  = match progressPercent polled with
    | Some p => if (p =? 0)%Z then [] else [p]
    | None => []
    end.
Proof.
  unfold surface.
  destruct (progressPercent polled) as [p|]; simpl.
  - destruct (p =? 0)%Z; simpl; [|reflexivity].
    destruct (strict_eqb _ _); reflexivity.
  - destruct (strict_eqb _ _); reflexivity.
Qed.

Lemma progressLog_polled responses : forall operation,
  progressLog (snd (pollOperation responses operation))
  = reportedProgress
      (firstn (pollCalls (snd (pollOperation responses operation))) responses)
    ++ closing (fst (pollOperation responses operation)).
Proof.
  induction responses as [|vendor later IH]; intros operation.
  - simpl. destruct (isDone operation); reflexivity.
  - destruct (isDone operation) eqn:D.
    + rewrite (pollOperation_done _ _ D). reflexivity.
    + rewrite (pollOperation_step _ _ _ D).
      destruct vendor as [polled | m s].
      * rewrite checkVideoOperation_responds.
        specialize (IH polled).
        destruct (pollOperation later polled) as [outcome effects].
        simpl fst in *. simpl snd in *.
        cbn [pollCalls progressLog]. rewrite pollCalls_app, pollCalls_surface.
        cbn [Nat.add firstn]. rewrite progressLog_app, IH.
        unfold reportedProgress. cbn [flat_map].
        now rewrite <- progressLog_surface, app_assoc.
      * destruct (checkVideoOperation_fails m s) as [error T].
        rewrite T. reflexivity.
Qed.

Lemma reportedProgress_firstn n responses :
  exists k,
    reportedProgress (firstn n responses) = firstn k (reportedProgress responses).
Proof.
  exists (length (reportedProgress (firstn n responses))).
  assert (E : reportedProgress responses
              = reportedProgress (firstn n responses)
                ++ reportedProgress (skipn n responses)).
  { rewrite <- (firstn_skipn n responses) at 1. apply flat_map_app. }
  rewrite E, <- (Nat.add_0_r (length _)), firstn_app_2.
  now rewrite firstn_O, app_nil_r.
Qed.

Lemma nonDecreasing_firstn l : forall k,
  nonDecreasing l = true -> nonDecreasing (firstn k l) = true.
Proof.
  induction l as [|x l IH]; intros k H; [now destruct k|].
  destruct k as [|k]; [reflexivity|].
  destruct l as [|y l]; [now destruct k|].
  simpl in H. apply andb_true_iff in H. destruct H as [Hxy H].
  specialize (IH k H). destruct k as [|k]; [reflexivity|].
  simpl in *. now rewrite Hxy, IH.
Qed.

Lemma forallb_firstn {A} (f : A -> bool) l : forall k,
  forallb f l = true -> forallb f (firstn k l) = true.
Proof.
  induction l as [|x l IH]; intros k H; [now destruct k|].
  destruct k as [|k]; [reflexivity|].
  simpl in *. apply andb_true_iff in H. destruct H as [Hx H].
  now rewrite Hx, IH.
Qed.

Lemma nonDecreasing_closing l tail :
  nonDecreasing l = true ->
  forallb (fun p => (p <=? 100)%Z) l = true ->
  tail = [] \/ tail = [100%Z] ->
  nonDecreasing (l ++ tail) = true.
Proof.
  intros H B [-> | ->]; [now rewrite app_nil_r|].
  induction l as [|x l IH]; [reflexivity|].
  simpl in B. apply andb_true_iff in B. destruct B as [Bx B].
  destruct l as [|y l].
  - simpl. now rewrite Bx.
  - simpl in H. apply andb_true_iff in H. destruct H as [Hxy H].
    specialize (IH H B). simpl in *. now rewrite Hxy, IH.
Qed.

(** C9, as stated, fails.  The poller passes on what the vendor reports:
    when one poll reports 50 and the next reports 30, the progress shown
    goes from 50 down to 30. *)
Lemma progress_can_decrease :
  ~ (forall (responses : list (VendorOutcome GenerateVideosOperation))
            (operation : GenerateVideosOperation),
       nonDecreasing (progressLog (snd (pollOperation responses operation))) = true).
Proof.
  intros H.
  specialize (H [ Responds {| done := Some false; progressPercent := Some 50%Z;
                              state := Some (lit "PROCESSING"); videoUri := None |};
                  Responds {| done := Some false; progressPercent := Some 30%Z;
                              state := Some (lit "PROCESSING"); videoUri := None |} ]
                {| done := None; progressPercent := None;
                   state := None; videoUri := None |}).
  vm_compute in H. discriminate H.
Qed.

(** C9, amended.  The progress values the poller surfaces are, in order
    and with none left out or added, the non-zero values reported by the
    handles it polled (one answer per call of [checkVideoOperation], the
    submitted handle itself not being read), followed by 100 exactly when
    the wait returns.  So when the values the vendor reports never
    decrease and never exceed 100, the surfaced progress never
    decreases. *)
Theorem progress_follows_reports
    (responses : list (VendorOutcome GenerateVideosOperation))
    (operation : GenerateVideosOperation) :
  let run := pollOperation responses operation in
  let polled := firstn (pollCalls (snd run)) responses in
  progressLog (snd run) = reportedProgress polled ++ closing (fst run)
  /\ (nonDecreasing (reportedProgress responses) = true ->
      forallb (fun p => (p <=? 100)%Z) (reportedProgress responses) = true ->
      nonDecreasing (progressLog (snd run)) = true).
Proof.
  cbv zeta. split; [apply progressLog_polled|].
  intros Hsorted Hbound. rewrite progressLog_polled.
  destruct (reportedProgress_firstn (pollCalls (snd (pollOperation responses operation)))
              responses) as [k ->].
  apply nonDecreasing_closing.
  - now apply nonDecreasing_firstn.
  - now apply forallb_firstn.
  - destruct (fst (pollOperation responses operation)); simpl; auto.
Qed.

Lemma progress_follows_reports_witness :
  progressLog (snd (pollOperation zeroFiftyDone submitted))
  = reportedProgress (firstn 3 zeroFiftyDone) ++ [100%Z]
  /\ nonDecreasing (progressLog (snd (pollOperation zeroFiftyDone submitted))) = true.
Proof.
  destruct (@progress_follows_reports zeroFiftyDone submitted) as [E M].
  split; [exact E | apply M; reflexivity].
Defined.

Example progress_zero_fifty_done :
  progressLog (snd (pollOperation zeroFiftyDone submitted)) = [50%Z; 100%Z]
  /\ pollCalls (snd (pollOperation zeroFiftyDone submitted)) = 3%nat.
Proof. split; vm_compute; reflexivity. Qed.

End VideoFactory.

(* ================================================================== *)
(** * Live talk: playback scheduling in [LiveTalkView]'s [onmessage] *)
(* ================================================================== *)

Module LiveTalk.

Local Open Scope Q_scope.

(** An [AudioBufferSourceNode] once [start] has been called on it: when
    it starts on the clock of the output context, the duration of its
    buffer and its playback rate. *)
Record Source := {
  startAt : Q;
  duration : Q;
  playbackRate : Q
}.

(** The references the audio branch works on: [nextStartTimeRef] and the
    sources started so far, in the order of the [start] calls. *)
Record Playback := {
  nextStartTime : Q;
  sources : list Source
}.

(** A server message as the audio branch reads it: the duration of the
    decoded buffer when the message carries audio
    ([message.serverContent?.modelTurn?.parts[0]?.inlineData?.data]). *)
Record LiveServerMessage := {
  audio : option Q
}.

(** The time a source occupies on the clock:
    [audioBuffer.duration / playbackRateRef.current]. *)
Definition playTime (bufferDuration rate : Q) : Q := bufferDuration / rate.

(** The end of a source on the clock. *)
Definition endAt (s : Source) : Q := startAt s + playTime (duration s) (playbackRate s).

(** The first statement of the audio branch, with [currentTime] the
    value of [outputCtx.currentTime] it reads:
<<
  nextStartTimeRef.current = Math.max(nextStartTimeRef.current, outputCtx.currentTime);
>> *)
Definition clamp (currentTime : Q) (st : Playback) : Playback :=
  {| nextStartTime := Qmax (nextStartTime st) currentTime;
     sources := sources st |}.

(** The statements after the buffer is decoded, with [rate] the value of
    [playbackRateRef.current]:
<<
  source.playbackRate.value = playbackRateRef.current;
  ...
  source.start(nextStartTimeRef.current);
  nextStartTimeRef.current += audioBuffer.duration / playbackRateRef.current;
  audioSourcesRef.current.add(source);
>> *)
Definition schedule (bufferDuration rate : Q) (st : Playback) : Playback :=
  let source := {| startAt := nextStartTime st; duration := bufferDuration;
                   playbackRate := rate |} in
  {| nextStartTime := nextStartTime st + bufferDuration / rate;
     sources := sources st ++ [source] |}.

(** The audio branch of [onmessage] for one message, run without another
    handler in between: the cursor is clamped, the buffer is decoded (its
    duration is what the message carries here), the source is started. *)
Definition onmessage (currentTime rate : Q) (message : LiveServerMessage)
    (st : Playback) : Playback :=
  match audio message with
  | Some bufferDuration => schedule bufferDuration rate (clamp currentTime st)
  | None => st
  end.

(** The two halves of the handlers of several messages, in the order in
    which they run when handlers overlap at the [await]. *)
Inductive Step :=
| Clamped (currentTime : Q)
| Started (bufferDuration rate : Q).

Definition step (st : Playback) (s : Step) : Playback :=
  match s with
  | Clamped currentTime => clamp currentTime st
  | Started bufferDuration rate => schedule bufferDuration rate st
  end.

Definition run (steps : list Step) (st : Playback) : Playback :=
  fold_left step steps st.

(** The sources [l] play back to back from [start], and the last one
    ends at [cursor]. *)
Fixpoint chained (start : Q) (l : list Source) (cursor : Q) : Prop :=
  match l with
  | [] => start = cursor
  | s :: l' => startAt s = start /\ chained (endAt s) l' cursor
  end.

(** Every clamp of [steps] happens while the clock has not passed the
    cursor. *)
Fixpoint quiet (steps : list Step) (st : Playback) : Prop :=
  match steps with
  | [] => True
  | s :: later =>
      match s with
      | Clamped currentTime => currentTime <= nextStartTime st
      | Started _ _ => True
      end /\ quiet later (step st s)
  end.

(** The state of a session that has not played anything:
    [nextStartTimeRef = useRef(0)]. *)
Definition initial : Playback := {| nextStartTime := 0; sources := [] |}.

Lemma Qmax_keeps_cursor (cursor now : Q) : now <= cursor -> Qmax cursor now = cursor.
Proof.
  intros H. unfold Qmax, GenericMinMax.gmax.
  destruct (cursor ?= now) eqn:C; try reflexivity.
  apply Qlt_alt in C. exfalso. apply (Qlt_irrefl cursor).
  eapply Qlt_le_trans; eassumption.
Qed.

Lemma Qmax_at_least_now (cursor now : Q) : now <= Qmax cursor now.
Proof. apply Q.le_max_r. Qed.

Lemma playTime_nonneg (d r : Q) : 0 <= d -> 0 < r -> 0 <= playTime d r.
Proof.
  intros Hd Hr. unfold playTime, Qdiv.
  apply Qmult_le_0_compat; [assumption|].
  apply Qlt_le_weak. now apply Qinv_lt_0_compat.
Qed.

Lemma playTime_default_rate (d : Q) : playTime d 1 == d.
Proof. unfold playTime. field. Qed.

Lemma clamp_quiet (currentTime : Q) (st : Playback) :
  currentTime <= nextStartTime st -> clamp currentTime st = st.
Proof.
  intros H. unfold clamp. rewrite (Qmax_keeps_cursor H). now destruct st.
Qed.

Lemma chained_schedule (start : Q) (l : list Source) (cursor d r : Q) :
  chained start l cursor ->
  chained start (l ++ [ {| startAt := cursor; duration := d; playbackRate := r |} ])
          (cursor + d / r).
Proof.
  revert start. induction l as [|s l IH]; intros start H; simpl in *.
  - subst. split; reflexivity.
  - destruct H as [H1 H2]. split; [assumption | now apply IH].
Qed.

(** X18.  However the handlers of successive messages overlap, as long as no
    clamp moves the cursor the sources started stay back to back. *)
Lemma overlapping_handlers_stay_chained (steps : list Step) :
  forall (st : Playback) (start : Q),
    chained start (sources st) (nextStartTime st) ->
    quiet steps st ->
    chained start (sources (run steps st)) (nextStartTime (run steps st)).
Proof.
  induction steps as [|s steps IH]; intros st start C Q; [exact C|].
  destruct Q as [Qs Q]. apply IH; [|exact Q].
  destruct s as [t | d r]; cbn [step].
  - now rewrite (clamp_quiet _ Qs).
  - now apply chained_schedule.
Qed.

(** C2.  Three audio chunks, the second and third handled no later than
    the end of the first: the first starts at the cursor clamped up to
    the clock, each following chunk starts exactly where the one before
    ends (its start plus its buffer duration over its playback rate, the
    buffer duration itself at the default rate 1), so the offsets from
    the first start are 0, the first play time, and the first two play
    times together; and no start is earlier than the clock read by its
    handler. *)
Theorem playback_is_gapless
    (st : Playback) (t1 t2 t3 d1 d2 d3 r1 r2 r3 : Q) :
  let first := Qmax (nextStartTime st) t1 in
  let final :=
    onmessage t3 r3 {| audio := Some d3 |}
      (onmessage t2 r2 {| audio := Some d2 |}
         (onmessage t1 r1 {| audio := Some d1 |} st)) in
  0 <= d2 -> 0 < r2 ->
  t2 <= first + playTime d1 r1 ->
  t3 <= first + playTime d1 r1 ->
  (exists s1 s2 s3,
     sources final = sources st ++ [s1; s2; s3]
     /\ startAt s1 = first
     /\ startAt s2 = endAt s1
     /\ startAt s3 = endAt s2
     /\ nextStartTime final = endAt s3
     /\ map startAt [s1; s2; s3]
        = [first; first + playTime d1 r1; first + playTime d1 r1 + playTime d2 r2]
     /\ map duration [s1; s2; s3] = [d1; d2; d3]
     /\ map playbackRate [s1; s2; s3] = [r1; r2; r3]
     /\ t1 <= startAt s1 /\ t2 <= startAt s2 /\ t3 <= startAt s3)
  /\ (r1 == 1 -> r2 == 1 ->
      first + playTime d1 r1 - first == d1
      /\ first + playTime d1 r1 + playTime d2 r2 - first == d1 + d2).
Proof.
  intros first final Hd2 Hr2 Ht2 Ht3.
  assert (P2 : 0 <= playTime d2 r2) by now apply playTime_nonneg.
  assert (Ht3' : t3 <= first + playTime d1 r1 + playTime d2 r2).
  { eapply Qle_trans; [exact Ht3|].
    rewrite <- (Qplus_0_r (first + playTime d1 r1)) at 1.
    apply Qplus_le_r. exact P2. }
  split.
  - exists {| startAt := first; duration := d1; playbackRate := r1 |},
           {| startAt := first + playTime d1 r1; duration := d2; playbackRate := r2 |},
           {| startAt := first + playTime d1 r1 + playTime d2 r2;
              duration := d3; playbackRate := r3 |}.
    subst final. unfold onmessage, schedule, clamp.
    simpl audio. cbv iota. simpl nextStartTime.
    fold first. fold (playTime d1 r1).
    rewrite (Qmax_keeps_cursor Ht2). fold (playTime d2 r2).
    rewrite (Qmax_keeps_cursor Ht3'). fold (playTime d3 r3).
    simpl sources. rewrite <- !app_assoc. simpl app.
    repeat split; try reflexivity; try assumption.
    apply Qmax_at_least_now.
  - intros E1 E2. unfold playTime. rewrite E1, E2. split; field.
Qed.

(** Three chunks of 2, 3 and 1 seconds at the default rate, handled at
    clock times 5, 5.5 and 6 in a fresh session. *)
Lemma playback_is_gapless_witness :
  (exists s1 s2 s3,
     sources (onmessage 6 1 {| audio := Some 1 |}
                (onmessage (11 # 2) 1 {| audio := Some 3 |}
                   (onmessage 5 1 {| audio := Some 2 |} initial)))
     = sources initial ++ [s1; s2; s3]
     /\ startAt s1 = Qmax (nextStartTime initial) 5
     /\ startAt s2 = endAt s1
     /\ startAt s3 = endAt s2
     /\ nextStartTime (onmessage 6 1 {| audio := Some 1 |}
                         (onmessage (11 # 2) 1 {| audio := Some 3 |}
                            (onmessage 5 1 {| audio := Some 2 |} initial)))
        = endAt s3
     /\ map startAt [s1; s2; s3]
        = [Qmax (nextStartTime initial) 5;
           Qmax (nextStartTime initial) 5 + playTime 2 1;
           Qmax (nextStartTime initial) 5 + playTime 2 1 + playTime 3 1]
     /\ map duration [s1; s2; s3] = [2; 3; 1]
     /\ map playbackRate [s1; s2; s3] = [1; 1; 1]
     /\ 5 <= startAt s1 /\ (11 # 2) <= startAt s2 /\ 6 <= startAt s3)
  /\ (1 == 1 -> 1 == 1 ->
      Qmax (nextStartTime initial) 5 + playTime 2 1 - Qmax (nextStartTime initial) 5 == 2
      /\ Qmax (nextStartTime initial) 5 + playTime 2 1 + playTime 3 1
         - Qmax (nextStartTime initial) 5 == 2 + 3).
Proof.
  apply (@playback_is_gapless initial 5 (11 # 2) 6 2 3 1 1 1 1);
    vm_compute; congruence.
Defined.

End LiveTalk.

(* ================================================================== *)
(** * Splitting a script for speech: [chunkText] *)
(* ================================================================== *)

Module ChunkText.

Local Open Scope Z_scope.

(** One iteration of the [while] loop for a text longer than
    [maxLength]: the chunk pushed and the text that remains. *)
Definition splitOnce (remainingText : jsstring) (maxLength : Z)
  : jsstring * jsstring :=
  let chunk := substring remainingText 0 maxLength in
  let splitIndex := lastIndexOf chunk (lit (String "010" (String "010" ""))) in
  let splitIndex := if splitIndex =? -1 then lastIndexOf chunk (lit ". ") else splitIndex in
  let splitIndex := if splitIndex =? -1 then lastIndexOf chunk (lit " ") else splitIndex in
  let splitIndex :=
    if (splitIndex =? -1) || (2 * splitIndex <? maxLength)
    then maxLength else splitIndex in
  (trim (substring remainingText 0 (splitIndex + 1)),
   trim (substringFrom remainingText (splitIndex + 1))).

(** The [while] loop; [fuel] bounds the number of iterations, and [None]
    means the bound was reached with the loop still running.
<<
  while (remainingText.length > 0) {
      if (remainingText.length <= maxLength) { chunks.push(remainingText); break; }
      ...
      chunks.push(remainingText.substring(0, splitIndex + 1).trim());
      remainingText = remainingText.substring(splitIndex + 1).trim();
  }
>> *)
Fixpoint chunkLoop (fuel : nat) (remainingText : jsstring) (maxLength : Z)
    (chunks : list jsstring) : option (list jsstring) :=
  match fuel with
  | O => None
  | S fuel' =>
      if 0 <? Z.of_nat (length remainingText) then
        if Z.of_nat (length remainingText) <=? maxLength
        then Some (chunks ++ [remainingText])
        else
          let (pushed, rest) := splitOnce remainingText maxLength in
          chunkLoop fuel' rest maxLength (chunks ++ [pushed])
      else Some chunks
  end.

(** [chunkText(text, maxLength)]; the loop gets one iteration more than
    the text has code units. *)
Definition chunkText (text : jsstring) (maxLength : Z) : option (list jsstring) :=
  if negb (truthy text) then Some []
  else
    match chunkLoop (S (length text)) text maxLength [] with
    | Some chunks => Some (filter (fun c => 0 <? Z.of_nat (length c)) chunks)
    | None => None
    end.

(** The default of the [maxLength] parameter. *)
Definition defaultMaxLength : Z := 7000.

(** A text of 7001 letters "a". *)
Definition unbroken : jsstring := repeat 97%N (S (7 * 1000)).

(** ** Bounds on the string primitives *)

Lemma clampIndex_le_length (s : jsstring) i : (clampIndex s i <= length s)%nat.
Proof. unfold clampIndex. lia. Qed.

Lemma clampIndex_le (s : jsstring) i : 0 <= i -> Z.of_nat (clampIndex s i) <= i.
Proof. unfold clampIndex. lia. Qed.

Lemma clampIndex_pos (s : jsstring) i :
  0 < i -> s <> [] -> (0 < clampIndex s i)%nat.
Proof.
  intros Hi Hs. unfold clampIndex.
  destruct s as [|c s]; [congruence|]. simpl length. lia.
Qed.

Lemma substring0_length (s : jsstring) b :
  0 <= b ->
  Z.of_nat (length (substring s 0 b)) <= b
  /\ (length (substring s 0 b) <= length s)%nat.
Proof.
  intros Hb. unfold substring.
  assert (clampIndex s 0 = 0%nat) as -> by (unfold clampIndex; lia).
  rewrite Nat.min_0_l, Nat.max_0_l, Nat.sub_0_r. simpl skipn.
  rewrite length_firstn. pose proof (clampIndex_le s Hb). lia.
Qed.

Lemma substringFrom_length (s : jsstring) a :
  length (substringFrom s a) = (length s - clampIndex s a)%nat.
Proof. unfold substringFrom. apply length_skipn. Qed.

Lemma lastIndexOf_from_bounds (p : jsstring) : forall s i acc,
  -1 <= acc < i -> 0 <= i ->
  -1 <= lastIndexOf_from s p i acc <= i + Z.of_nat (length s).
Proof.
  induction s as [|c s IH]; intros i acc Hacc Hi.
  - destruct p; simpl; lia.
  - cbn [lastIndexOf_from length]. destruct (startsWith (c :: s) p).
    + specialize (IH (i + 1) i). lia.
    + specialize (IH (i + 1) acc). lia.
Qed.

Lemma lastIndexOf_bounds (s p : jsstring) :
  -1 <= lastIndexOf s p <= Z.of_nat (length s).
Proof.
  unfold lastIndexOf.
  pose proof (@lastIndexOf_from_bounds p s 0 (-1)). lia.
Qed.

(** ** One iteration *)

Lemma splitOnce_bounds (remainingText : jsstring) (maxLength : Z) :
  0 <= maxLength ->
  maxLength < Z.of_nat (length remainingText) ->
  Z.of_nat (length (fst (splitOnce remainingText maxLength))) <= maxLength + 1
  /\ (length (snd (splitOnce remainingText maxLength)) < length remainingText)%nat.
Proof.
  intros Hmax Hlong. unfold splitOnce.
  set (chunk := substring remainingText 0 maxLength).
  destruct (substring0_length remainingText Hmax) as [Hchunk _].
  fold chunk in Hchunk.
  set (i1 := lastIndexOf chunk (lit (String "010" (String "010" "")))).
  set (i2 := if i1 =? -1 then lastIndexOf chunk (lit ". ") else i1).
  set (i3 := if i2 =? -1 then lastIndexOf chunk (lit " ") else i2).
  set (splitIndex := if (i3 =? -1) || (2 * i3 <? maxLength) then maxLength else i3).
  assert (B3 : -1 <= i3 <= maxLength).
  { subst i3 i2 i1.
    pose proof (lastIndexOf_bounds chunk (lit (String "010" (String "010" "")))).
    pose proof (lastIndexOf_bounds chunk (lit ". ")).
    pose proof (lastIndexOf_bounds chunk (lit " ")).
    repeat match goal with |- context [if ?b then _ else _] => destruct b end; lia. }
  assert (B : 0 <= splitIndex <= maxLength).
  { subst splitIndex.
    destruct (Z.eqb_spec i3 (-1)); cbn [orb]; [lia|].
    destruct (2 * i3 <? maxLength); lia. }
  simpl fst. simpl snd. split.
  - pose proof (trim_length (substring remainingText 0 (splitIndex + 1))).
    assert (0 <= splitIndex + 1) as Hs by lia.
    destruct (substring0_length remainingText Hs). lia.
  - pose proof (trim_length (substringFrom remainingText (splitIndex + 1))) as T.
    rewrite substringFrom_length in T.
    assert (remainingText <> []) as Hne by (intros ->; simpl in Hlong; lia).
    assert (0 < splitIndex + 1) as Hs by lia.
    pose proof (clampIndex_pos Hs Hne).
    pose proof (clampIndex_le_length remainingText (splitIndex + 1)).
    assert (0 < length remainingText)%nat by (destruct remainingText; simpl; [congruence|lia]).
    lia.
Qed.

(** ** The loop terminates *)

Lemma chunkLoop_terminates (maxLength : Z) : 0 <= maxLength ->
  forall fuel remainingText chunks,
    (length remainingText < fuel)%nat ->
    exists pushed,
      chunkLoop fuel remainingText maxLength chunks = Some (chunks ++ pushed)
      /\ Forall (fun c => Z.of_nat (length c) <= maxLength + 1) pushed.
Proof.
  intros Hmax. induction fuel as [|fuel IH]; intros remainingText chunks Hfuel; [lia|].
  cbn [chunkLoop]. destruct (Z.ltb_spec 0 (Z.of_nat (length remainingText))) as [Hpos|Hzero].
  - destruct (Z.leb_spec (Z.of_nat (length remainingText)) maxLength) as [Hshort|Hlong].
    + exists [remainingText]. split; [reflexivity|].
      constructor; [lia | constructor].
    + pose proof (splitOnce_bounds remainingText Hmax Hlong) as [Hp Hr].
      destruct (splitOnce remainingText maxLength) as [pushed rest].
      simpl in Hp, Hr.
      destruct (IH rest (chunks ++ [pushed])) as [more [E F]]; [lia|].
      exists (pushed :: more). split.
      * rewrite E, <- app_assoc. reflexivity.
      * constructor; assumption.
  - exists []. split; [now rewrite app_nil_r | constructor].
Qed.

(** X1.  For a non-negative [maxLength], [chunkText] returns, every chunk is
    non-empty, and every chunk has at most [maxLength + 1] code units. *)
Theorem chunkText_total (text : jsstring) (maxLength : Z) :
  0 <= maxLength ->
  exists chunks,
    chunkText text maxLength = Some chunks
    /\ Forall (fun c => c <> [] /\ Z.of_nat (length c) <= maxLength + 1) chunks.
Proof.
  intros Hmax. unfold chunkText.
  destruct (truthy text); cbn [negb];
    [|exists []; split; [reflexivity | constructor]].
  destruct (@chunkLoop_terminates maxLength Hmax (S (length text)) text [])
    as [pushed [E F]]; [lia|].
  rewrite E. cbn [app]. eexists. split; [reflexivity|].
  apply Forall_forall. intros c Hc. apply filter_In in Hc. destruct Hc as [Hin Hlen].
  rewrite Forall_forall in F. split; [|now apply F].
  intros ->. discriminate Hlen.
Qed.

Lemma chunkText_total_witness :
  exists chunks,
    chunkText (lit "One. Two three") 6 = Some chunks
    /\ Forall (fun c => c <> [] /\ Z.of_nat (length c) <= 6 + 1) chunks.
Proof. apply (@chunkText_total (lit "One. Two three") 6). lia. Defined.

(** ** A text without a place to split *)

Section Unbroken.

Variable c : N.
Hypothesis c_not_space : isWhiteSpace c = false.

Lemma startsWith_repeat_other (p : jsstring) (x : N) : forall k,
  In x p -> x <> c -> startsWith (repeat c k) p = false.
Proof.
  induction p as [|y p IH]; intros k Hin Hx; [contradiction|].
  destruct k as [|k]; [reflexivity|]. simpl.
  destruct (N.eqb_spec y c) as [->|Hy]; [|reflexivity]. simpl.
  destruct Hin as [-> | Hin]; [congruence|]. now apply IH.
Qed.

Lemma lastIndexOf_repeat_other (p : jsstring) (x : N) :
  In x p -> x <> c -> forall k i acc, lastIndexOf_from (repeat c k) p i acc = acc.
Proof.
  intros Hin Hx. induction k as [|k IH]; intros i acc.
  - simpl. destruct p; [contradiction | reflexivity].
  - pose proof (@startsWith_repeat_other p x (S k) Hin Hx) as E.
    cbn [repeat lastIndexOf_from] in *. rewrite E. apply IH.
Qed.

Lemma firstn_repeat_le i : forall k,
  (i <= k)%nat -> firstn i (repeat c k) = repeat c i.
Proof.
  induction i as [|i IH]; intros k H; [reflexivity|].
  destruct k as [|k]; [lia|]. simpl. f_equal. apply IH. lia.
Qed.

Lemma trimStart_repeat k : trimStart (repeat c k) = repeat c k.
Proof. destruct k; simpl; [reflexivity | now rewrite c_not_space]. Qed.

Lemma trim_repeat k : trim (repeat c k) = repeat c k.
Proof.
  unfold trim, trimEnd.
  now rewrite trimStart_repeat, rev_repeat, trimStart_repeat, rev_repeat.
Qed.

Lemma c_is_not (x : N) : isWhiteSpace x = true -> x <> c.
Proof. intros H ->. congruence. Qed.

Lemma splitOnce_unbroken n :
  splitOnce (repeat c (S n)) (Z.of_nat n) = (repeat c (S n), []).
Proof.
  unfold splitOnce.
  assert (Hclamp : forall i, (i <= S n)%nat ->
                             clampIndex (repeat c (S n)) (Z.of_nat i) = i).
  { intros i Hi. unfold clampIndex. rewrite repeat_length. lia. }
  assert (Hsub : forall i, (i <= S n)%nat ->
                           substring (repeat c (S n)) 0 (Z.of_nat i) = repeat c i).
  { intros i Hi. unfold substring.
    rewrite (Hclamp i Hi). change 0 with (Z.of_nat 0). rewrite (Hclamp 0%nat) by lia.
    rewrite Nat.min_0_l, Nat.max_0_l, Nat.sub_0_r. cbn [skipn].
    apply firstn_repeat_le. lia. }
  rewrite (Hsub n) by lia.
  unfold lastIndexOf.
  rewrite (@lastIndexOf_repeat_other (lit (String "010" (String "010" ""))) 10%N)
    by (try (left; reflexivity); now apply c_is_not).
  change (-1 =? -1) with true. cbv iota.
  rewrite (@lastIndexOf_repeat_other (lit ". ") 32%N)
    by (try (right; left; reflexivity); now apply c_is_not).
  change (-1 =? -1) with true. cbv iota.
  rewrite (@lastIndexOf_repeat_other (lit " ") 32%N)
    by (try (left; reflexivity); now apply c_is_not).
  change (-1 =? -1) with true. cbn [orb].
  replace (Z.of_nat n + 1) with (Z.of_nat (S n)) by lia.
  rewrite (Hsub (S n)) by lia. rewrite trim_repeat.
  unfold substringFrom. rewrite (Hclamp (S n)) by lia.
  rewrite skipn_all2 by (rewrite repeat_length; lia). reflexivity.
Qed.

(** Whatever [maxLength] is, a run of [maxLength + 1] copies of a
    character that is not white space comes back as one chunk. *)
Lemma chunkText_unbroken n :
  chunkText (repeat c (S n)) (Z.of_nat n) = Some [repeat c (S n)].
Proof.
  assert (L : length (repeat c (S n)) = S n) by apply repeat_length.
  assert (Step : forall fuel chunks,
            chunkLoop (S (S fuel)) (repeat c (S n)) (Z.of_nat n) chunks
            = Some (chunks ++ [repeat c (S n)])).
  { intros fuel chunks.
    change (chunkLoop (S (S fuel)) (repeat c (S n)) (Z.of_nat n) chunks)
      with (if 0 <? Z.of_nat (length (repeat c (S n))) then
              if Z.of_nat (length (repeat c (S n))) <=? Z.of_nat n
              then Some (chunks ++ [repeat c (S n)])
              else
                let (pushed, rest) := splitOnce (repeat c (S n)) (Z.of_nat n) in
                chunkLoop (S fuel) rest (Z.of_nat n) (chunks ++ [pushed])
            else Some chunks).
    rewrite L, splitOnce_unbroken.
    destruct (Z.ltb_spec 0 (Z.of_nat (S n))) as [_|]; [|lia].
    destruct (Z.leb_spec (Z.of_nat (S n)) (Z.of_nat n)) as [|_]; [lia|].
    reflexivity. }
  unfold chunkText.
  replace (truthy (repeat c (S n))) with true by reflexivity.
  cbn [negb]. rewrite L, Step. cbn [app filter]. rewrite L.
  destruct (Z.ltb_spec 0 (Z.of_nat (S n))) as [_|]; [reflexivity | lia].
Qed.

End Unbroken.

(** C10 fails on the code.  A text of 7001 letters "a" given to
    [chunkText] with the default [maxLength] of 7000 has no place to
    split, so [splitIndex] becomes [maxLength] and the chunk pushed is
    [substring(0, maxLength + 1)]: the result is a single chunk of 7001
    code units, one more than [maxLength]. *)
Theorem chunkText_exceeds_maxLength :
  chunkText unbroken defaultMaxLength = Some [unbroken]
  /\ Z.of_nat (length unbroken) = defaultMaxLength + 1
  /\ chunkText (lit "abc") 2 = Some [lit "abc"].
Proof.
  split; [|split].
  - change defaultMaxLength with (Z.of_nat (7 * 1000)).
    apply (@chunkText_unbroken 97%N eq_refl).
  - unfold unbroken, defaultMaxLength.
    rewrite repeat_length, Nat2Z.inj_succ, Nat2Z.inj_mul. reflexivity.
  - reflexivity.
Qed.

End ChunkText.

(* ================================================================== *)
(** * [chunkText]: what the chunks contain *)
(* ================================================================== *)

Module ChunkTextContent.

Import ChunkText.

Local Open Scope Z_scope.

(** The code units of [s] that are not white space, in order. *)
Definition nonSpace (s : jsstring) : jsstring :=
  filter (fun c => negb (isWhiteSpace c)) s.

Lemma nonSpace_trimStart s : nonSpace (trimStart s) = nonSpace s.
Proof.
  induction s as [|c s IH]; [reflexivity|].
  simpl. destruct (isWhiteSpace c) eqn:E; simpl; [exact IH | now rewrite E].
Qed.

Lemma nonSpace_trim s : nonSpace (trim s) = nonSpace s.
Proof.
  unfold trim, trimEnd, nonSpace. rewrite filter_rev.
  fold (nonSpace (trimStart (rev (trimStart s)))). rewrite nonSpace_trimStart.
  unfold nonSpace. rewrite filter_rev, rev_involutive.
  apply nonSpace_trimStart.
Qed.

Lemma substring_from_zero (s : jsstring) b :
  substring s 0 b = firstn (clampIndex s b) s.
Proof.
  unfold substring.
  assert (clampIndex s 0 = 0%nat) as -> by (unfold clampIndex; lia).
  now rewrite Nat.min_0_l, Nat.max_0_l, Nat.sub_0_r.
Qed.

Lemma splitOnce_keeps remainingText maxLength :
  nonSpace (fst (splitOnce remainingText maxLength))
  ++ nonSpace (snd (splitOnce remainingText maxLength))
  = nonSpace remainingText.
Proof.
  unfold splitOnce. cbn [fst snd].
  rewrite !nonSpace_trim, substring_from_zero. unfold substringFrom, nonSpace.
  rewrite <- filter_app, firstn_skipn. reflexivity.
Qed.

Lemma nonSpace_concat_snoc chunks c :
  nonSpace (concat (chunks ++ [c])) = nonSpace (concat chunks) ++ nonSpace c.
Proof.
  unfold nonSpace. now rewrite concat_app, filter_app, (concat_cons c []), app_nil_r.
Qed.

Lemma chunkLoop_keeps maxLength : forall fuel remainingText chunks out,
  chunkLoop fuel remainingText maxLength chunks = Some out ->
  nonSpace (concat out) = nonSpace (concat chunks) ++ nonSpace remainingText.
Proof.
  induction fuel as [|fuel IH]; intros remainingText chunks out H; [discriminate|].
  cbn [chunkLoop] in H.
  destruct (0 <? Z.of_nat (length remainingText)) eqn:Hpos.
  - destruct (Z.of_nat (length remainingText) <=? maxLength).
    + injection H as <-. apply nonSpace_concat_snoc.
    + pose proof (splitOnce_keeps remainingText maxLength) as K.
      destruct (splitOnce remainingText maxLength) as [pushed rest].
      cbn [fst snd] in K. apply IH in H.
      now rewrite H, nonSpace_concat_snoc, <- app_assoc, K.
  - injection H as <-.
    destruct remainingText; [now rewrite app_nil_r | discriminate Hpos].
Qed.

Lemma concat_without_empty (chunks : list jsstring) :
  concat (filter (fun c => 0 <? Z.of_nat (length c)) chunks) = concat chunks.
Proof.
  induction chunks as [|c chunks IH]; [reflexivity|].
  simpl. destruct c as [|x c]; simpl; [exact IH | now rewrite IH].
Qed.

(** X2.  Splitting loses no text: for a non-negative [maxLength], the chunks
    [chunkText] returns contain, in order, exactly the code units of the
    text that are not white space; only white space is dropped by the
    trimming. *)
Theorem chunkText_keeps_text (text : jsstring) (maxLength : Z) :
  0 <= maxLength ->
  exists chunks,
    chunkText text maxLength = Some chunks
    /\ nonSpace (concat chunks) = nonSpace text.
Proof.
  intros Hmax. unfold chunkText.
  destruct text as [|c text]; [exists []; split; reflexivity|].
  cbn [truthy negb].
  destruct (@chunkLoop_terminates maxLength Hmax (S (length (c :: text)))
              (c :: text) []) as [pushed [E _]]; [lia|].
  rewrite E. eexists. split; [reflexivity|].
  rewrite concat_without_empty. apply (chunkLoop_keeps _ _ _ _ E).
Qed.

Lemma chunkText_keeps_text_witness :
  exists chunks,
    chunkText (lit "One. Two  three") 6 = Some chunks
    /\ nonSpace (concat chunks) = nonSpace (lit "One. Two  three").
Proof. apply (@chunkText_keeps_text (lit "One. Two  three") 6). lia. Defined.

End ChunkTextContent.

(* ================================================================== *)
(** * The chat panel: sending, failing and regenerating *)
(* ================================================================== *)

Module Chat.

Import Streaming.

(** [handleSendMessage] in a streaming mode, from the construction of
    the user message on.  [base] is [messageHistory || messages] (an
    array, even an empty one, is truthy), [userId] and [modelId] are the
    two identifiers made from [Date.now()], [preview] is the
    [imagePreview] state (the message carries [imagePreview || undefined]). *)
Definition handleSendMessage (userId modelId textToSend : jsstring)
    (preview : option jsstring) (base : list ChatMessage)
    (stream : list StreamEvent) : jsstring * ChatState :=
  let userMessage :=
    {| id := userId; role := user; parts := [textToSend];
       imagePreview := Facade.or_else preview None; isStreaming := false;
       groundingSources := None |} in
  let currentMessages := base ++ [userMessage] in
  handleSendMessage_stream userId modelId currentMessages stream.


(** The first two lines of [handleSendMessage]:
<<
  const textToSend = messageText || input;
  if (!textToSend.trim() && !imageFile) return;
>>
    [None] is the early return, otherwise the text that goes into the
    user message and to the model.  [input] and [imageFile] are the
    states of the input box and of the attached image. *)
Definition textToSend {File : Type} (messageText : option jsstring)
    (input : jsstring) (imageFile : option File) : option jsstring :=
  let textToSend :=
    match messageText with
    | Some t => if truthy t then t else input
    | None => input
    end in
  if negb (truthy (trim textToSend))
     && negb (match imageFile with Some _ => true | None => false end)
  then None
  else Some textToSend.




(** No message of [l] carries the identifier [i]. *)
Definition fresh (i : jsstring) (l : list ChatMessage) : Prop :=
  Forall (fun m => id m <> i) l.


(** ** A failed send *)

Lemma eqb_fresh i m : id m <> i -> JS.eqb (id m) i = false.
Proof.
  intros H. destruct (JS.eqb (id m) i) eqn:E; [|reflexivity].
  apply JS.eqb_eq in E. contradiction.
Qed.

Lemma showStreamed_fresh modelId t l :
  fresh modelId l -> map (showStreamed modelId t) l = l.
Proof.
  intros F. induction F as [|m l Hm F IH]; [reflexivity|].
  cbn [map]. rewrite IH. unfold showStreamed. now rewrite (@eqb_fresh modelId m Hm).
Qed.

Lemma shown_fresh modelId pre acc l :
  fresh modelId l -> shown modelId pre acc l = l.
Proof.
  intros F. destruct pre as [|c pre]; [reflexivity|].
  now apply showStreamed_fresh.
Qed.

Lemma filter_fresh userId modelId l :
  fresh userId l -> fresh modelId l ->
  filter (fun m => negb (JS.eqb (id m) userId) && negb (JS.eqb (id m) modelId)) l = l.
Proof.
  intros Fu Fm. induction l as [|m l IH]; [reflexivity|].
  inversion Fu; inversion Fm; subst. simpl.
  rewrite (@eqb_fresh userId m), (@eqb_fresh modelId m) by assumption.
  simpl. now rewrite IH.
Qed.

Lemma shown_app modelId pre acc l1 l2 :
  shown modelId pre acc (l1 ++ l2)
  = shown modelId pre acc l1 ++ shown modelId pre acc l2.
Proof. destruct pre; [reflexivity | apply map_app]. Qed.

Lemma filter_shown_user userId modelId pre acc (m : ChatMessage) :
  id m = userId ->
  filter (fun m => negb (JS.eqb (id m) userId) && negb (JS.eqb (id m) modelId))
         (shown modelId pre acc [m]) = [].
Proof.
  intros E.
  assert (H : forall m', id m' = userId ->
            negb (JS.eqb (id m') userId) && negb (JS.eqb (id m') modelId) = false).
  { intros m' ->. now rewrite JS.eqb_refl. }
  destruct pre as [|c pre]; cbn [shown map filter].
  - now rewrite (H m E).
  - rewrite H; [reflexivity|]. unfold showStreamed.
    destruct (JS.eqb (id m) modelId); assumption.
Qed.

(** X3.  When the stream raises after any number of chunks, the chat panel
    is back to the conversation it had before the send: the user message
    and the partial answer are both gone, an error is shown and the
    panel is no longer loading.  The identifiers of the two new messages
    are taken not to occur in the conversation. *)
Theorem failed_send_restores_conversation
    (userId modelId textToSend : jsstring) (preview : option jsstring)
    (base : list ChatMessage) (pre : list jsstring) (rest : list StreamEvent) :
  fresh userId base -> fresh modelId base ->
  snd (handleSendMessage userId modelId textToSend preview base
         (delivered pre ++ Raise :: rest))
  = {| messages := base;
       error := Some (lit "An error occurred. Please try again.");
       isLoading := false |}.
Proof.
  intros Fu Fm. unfold handleSendMessage, handleSendMessage_stream.
  rewrite chatLoop_app. cbn [chatLoop snd]. f_equal.
  rewrite shown_last by reflexivity.
  rewrite shown_app, !filter_app, (shown_fresh _ _ Fm), (filter_fresh Fu Fm).
  rewrite filter_shown_user by reflexivity.
  cbn [filter withParts id]. rewrite !JS.eqb_refl, andb_false_r.
  now rewrite !app_nil_r.
Qed.

Lemma failed_send_restores_conversation_witness :
  snd (handleSendMessage (lit "user-2") (lit "model-2") (lit "again?") None
         [ {| id := lit "user-1"; role := user; parts := [lit "hi"];
              imagePreview := None; isStreaming := false; groundingSources := None |};
           {| id := lit "model-1"; role := model; parts := [lit "hello"];
              imagePreview := None; isStreaming := false; groundingSources := None |} ]
         (delivered [lit "par"; lit "tial"] ++ Raise :: []))
  = {| messages :=
         [ {| id := lit "user-1"; role := user; parts := [lit "hi"];
              imagePreview := None; isStreaming := false; groundingSources := None |};
           {| id := lit "model-1"; role := model; parts := [lit "hello"];
              imagePreview := None; isStreaming := false; groundingSources := None |} ];
       error := Some (lit "An error occurred. Please try again.");
       isLoading := false |}.
Proof.
  apply (@failed_send_restores_conversation (lit "user-2") (lit "model-2")
           (lit "again?") None _ [lit "par"; lit "tial"] []);
    repeat constructor; simpl; discriminate.
Defined.

(** ** Regenerating *)




Lemma role_not_user m : role m <> user -> role m = model.
Proof. destruct (role m); congruence. Qed.



End Chat.

(* ================================================================== *)
(** * Saved conversations of the chat panel *)
(* ================================================================== *)

Module Conversations.

(** [SavedConversation] of [types.ts]. *)
Record SavedConversation := {
  id : jsstring;
  name : jsstring;
  timestamp : N;
  messages : list Streaming.ChatMessage
}.

(** [`convo-${Date.now()}`]: the decimal digits of the clock value. *)
Definition convoId (now : N) : jsstring :=
  lit "convo-" ++ lit (DecimalString.NilZero.string_of_uint (N.to_uint now)).

(** [handleSaveConversation]; the result is both the
    [savedConversations] state and what is written to local storage. *)
Definition handleSaveConversation (name : jsstring) (now : N)
    (messages : list Streaming.ChatMessage)
    (savedConversations : list SavedConversation) : list SavedConversation :=
  let newConversation :=
    {| id := convoId now; name := name; timestamp := now;
       messages := filter (fun m => negb (Streaming.isStreaming m)) messages |} in
  newConversation :: savedConversations.

(** [handleLoadConversation]: the messages put on screen, when a
    conversation with that identifier exists. *)
Definition handleLoadConversation (i : jsstring)
    (savedConversations : list SavedConversation)
  : option (list Streaming.ChatMessage) :=
  match find (fun c => JS.eqb (id c) i) savedConversations with
  | Some conversation => Some (messages conversation)
  | None => None
  end.

(** [handleRenameConversation]. *)
Definition handleRenameConversation (i newName : jsstring)
    (savedConversations : list SavedConversation) : list SavedConversation :=
  map (fun c => if JS.eqb (id c) i
                then {| id := id c; name := newName; timestamp := timestamp c;
                        messages := messages c |}
                else c) savedConversations.

(** [handleDeleteConversation]. *)
Definition handleDeleteConversation (i : jsstring)
    (savedConversations : list SavedConversation) : list SavedConversation :=
  filter (fun c => negb (JS.eqb (id c) i)) savedConversations.

(** X5.  Saving and loading back by the new identifier gives the messages
    that were on screen, in order and unchanged, without those still
    streaming; every other identifier loads what it loaded before unless
    it is the new identifier itself. *)
Theorem save_then_load (newName : jsstring) (now : N)
    (onScreen : list Streaming.ChatMessage)
    (savedConversations : list SavedConversation) :
  let saved := handleSaveConversation newName now onScreen savedConversations in
  handleLoadConversation (convoId now) saved
    = Some (filter (fun m => negb (Streaming.isStreaming m)) onScreen)
  /\ (forall m, In m onScreen -> Streaming.isStreaming m = false ->
                exists loaded, handleLoadConversation (convoId now) saved = Some loaded
                               /\ In m loaded)
  /\ (forall i, i <> convoId now ->
                handleLoadConversation i saved
                = handleLoadConversation i savedConversations).
Proof.
  cbv zeta. unfold handleSaveConversation, handleLoadConversation.
  cbn [find id]. rewrite JS.eqb_refl. cbn [messages].
  split; [reflexivity|]. split.
  - intros m Hin Hs. eexists. split; [reflexivity|].
    apply filter_In. split; [assumption | now rewrite Hs].
  - intros i Hi. destruct (JS.eqb (convoId now) i) eqn:E; [|reflexivity].
    apply JS.eqb_eq in E. congruence.
Qed.

Lemma find_rename i j newName l :
  find (fun c => JS.eqb (id c) j) (handleRenameConversation i newName l)
  = match find (fun c => JS.eqb (id c) j) l with
    | Some c => Some (if JS.eqb (id c) i
                      then {| id := id c; name := newName;
                              timestamp := timestamp c; messages := messages c |}
                      else c)
    | None => None
    end.
Proof.
  unfold handleRenameConversation.
  induction l as [|c l IH]; [reflexivity|].
  cbn [map find].
  destruct (JS.eqb (id c) i) eqn:Ei; cbn [id];
    destruct (JS.eqb (id c) j); try (now rewrite ?Ei); apply IH.
Qed.

(** X6.  Renaming and deleting touch nothing else: after a rename every
    identifier loads the same messages as before, and the identifiers,
    message lists and order of the list are unchanged; after a delete the
    deleted identifier loads nothing and every other identifier loads
    what it loaded before. *)
Theorem rename_and_delete_keep_the_rest (i newName : jsstring)
    (savedConversations : list SavedConversation) :
  (forall j, handleLoadConversation j
               (handleRenameConversation i newName savedConversations)
             = handleLoadConversation j savedConversations)
  /\ map id (handleRenameConversation i newName savedConversations)
     = map id savedConversations
  /\ map messages (handleRenameConversation i newName savedConversations)
     = map messages savedConversations
  /\ handleLoadConversation i (handleDeleteConversation i savedConversations) = None
  /\ (forall j, j <> i ->
                handleLoadConversation j (handleDeleteConversation i savedConversations)
                = handleLoadConversation j savedConversations).
Proof.
  split; [|split; [|split; [|split]]].
  - intros j. unfold handleLoadConversation. rewrite find_rename.
    destruct (find _ savedConversations) as [c|]; [|reflexivity].
    destruct (JS.eqb (id c) i); reflexivity.
  - unfold handleRenameConversation. rewrite map_map. apply map_ext.
    intros c. destruct (JS.eqb (id c) i); reflexivity.
  - unfold handleRenameConversation. rewrite map_map. apply map_ext.
    intros c. destruct (JS.eqb (id c) i); reflexivity.
  - unfold handleLoadConversation, handleDeleteConversation.
    induction savedConversations as [|c l IH]; [reflexivity|].
    cbn [filter]. destruct (JS.eqb (id c) i) eqn:E; cbn [negb]; [exact IH|].
    cbn [find]. now rewrite E.
  - intros j Hj. unfold handleLoadConversation, handleDeleteConversation.
    induction savedConversations as [|c l IH]; [reflexivity|].
    cbn [filter find]. destruct (JS.eqb (id c) i) eqn:E; cbn [negb].
    + destruct (JS.eqb (id c) j) eqn:Ej; [|exact IH].
      apply JS.eqb_eq in E. apply JS.eqb_eq in Ej. congruence.
    + cbn [find]. destruct (JS.eqb (id c) j); [reflexivity | exact IH].
Qed.

End Conversations.

(* ================================================================== *)
(** * The script panel: continuing a script, templates, file names *)
(* ================================================================== *)

Module ScriptGenie.

Import Streaming.

(** ** Continuing a script *)

(** The loop of [handleContinueScript]:
<<
  for await (const chunk of stream) {
      const text = chunk.text;
      appendedContent += text;
      setGeneratedScript(initialScript + appendedContent);
  }
>> *)
Fixpoint continueLoop (stream : list StreamEvent)
    (initialScript appendedContent generatedScript : jsstring)
  : LoopExit * jsstring * jsstring :=
  match stream with
  | [] => (Finished, appendedContent, generatedScript)
  | Raise :: _ => (Thrown, appendedContent, generatedScript)
  | Deliver chunk :: rest =>
      let appendedContent := appendedContent ++ text chunk in
      continueLoop rest initialScript appendedContent
        (initialScript ++ appendedContent)
  end.

(** The marker appended when the continuation fails. *)
Definition continuationError : jsstring :=
  lit (String "010" (String "010"
         "--- ERROR: Could not continue script generation. ---")).

(** [handleContinueScript]: [generatedScript] is the script on screen,
    [opened] what [continueScriptStream] did (a stream, or an
    exception).  The result is the script on screen afterwards and the
    script handed to [saveScriptToHistory], when one is. *)
Definition handleContinueScript (generatedScript : jsstring)
    (opened : Facade.Completion (list StreamEvent))
  : jsstring * option jsstring :=
  let initialScript := generatedScript in
  match opened with
  | Facade.Throw _ => (generatedScript ++ continuationError, None)
  | Facade.Return stream =>
      match continueLoop stream initialScript (lit "") generatedScript with
      | (Finished, appendedContent, generatedScript) =>
          if truthy (trim appendedContent)
          then (generatedScript, Some (initialScript ++ appendedContent))
          else (generatedScript, None)
      | (Thrown, _, generatedScript) =>
          (generatedScript ++ continuationError, None)
      end
  end.

(** ** Templates *)

Record TemplateConfig := {
  scriptType : jsstring;
  tone : jsstring;
  format : jsstring;
  style : jsstring;
  length : Z;
  chapters : Z
}.

Record ScriptTemplate := {
  name : jsstring;
  config : TemplateConfig
}.

(** [handleSaveTemplate]: [newTemplateName] is the text of the name
    field, [editingTemplate] the template being edited, if any.  Nothing
    is saved for a blank name. *)
Definition handleSaveTemplate (newTemplateName : jsstring)
    (currentConfig : TemplateConfig) (editingTemplate : option ScriptTemplate)
    (templates : list ScriptTemplate) : list ScriptTemplate :=
  if negb (truthy (trim newTemplateName)) then templates
  else
    match editingTemplate with
    | Some edited =>
        map (fun t => if JS.eqb (name t) (name edited)
                      then {| name := trim newTemplateName; config := currentConfig |}
                      else t) templates
    | None =>
        let newTemplate := {| name := trim newTemplateName; config := currentConfig |} in
        filter (fun t => negb (JS.eqb (name t) (name newTemplate))) templates
        ++ [newTemplate]
    end.

(** [handleLoadTemplate]: the configuration put into the form, when a
    template of that name exists; an empty style falls back to
    [SCRIPT_STYLES[0]]. *)
Definition handleLoadTemplate (templateName : jsstring)
    (templates : list ScriptTemplate) : option TemplateConfig :=
  match find (fun t => JS.eqb (name t) templateName) templates with
  | Some template =>
      let c := config template in
      Some {| scriptType := scriptType c; tone := tone c; format := format c;
              style := if truthy (style c) then style c else lit "Default";
              length := length c; chapters := chapters c |}
  | None => None
  end.

(** [handleDeleteTemplate]. *)
Definition handleDeleteTemplate (templateName : jsstring)
    (templates : list ScriptTemplate) : list ScriptTemplate :=
  filter (fun t => negb (JS.eqb (name t) templateName)) templates.

(** ** The file name of a downloaded script *)

(** [s.replace(/\s+/g, '-')]: every maximal run of white space becomes
    one hyphen.  [inRun] tells that the previous code unit was white
    space. *)
Fixpoint hyphenate (s : jsstring) (inRun : bool) : jsstring :=
  match s with
  | [] => []
  | c :: s' =>
      if isWhiteSpace c
      then if inRun then hyphenate s' true else 45%N :: hyphenate s' true
      else c :: hyphenate s' false
  end.

(** A code unit matched by [[a-z0-9-]]. *)
Definition slugChar (c : N) : bool :=
  ((97 <=? c) && (c <=? 122) || (48 <=? c) && (c <=? 57) || (c =? 45))%N.

Section FileName.

(** [String.prototype.toLowerCase], a function of the host. *)
Variable toLowerCase : jsstring -> jsstring.

(** The name [handleSaveScript] gives the download, without its [.md]:
<<
  prompt.trim().toLowerCase().replace(/\s+/g, '-')
        .replace(/[^a-z0-9-]/g, '').substring(0, 30) || 'generated-script'
>> *)
Definition fileName (prompt : jsstring) : jsstring :=
  let slug :=
    substring (filter slugChar (hyphenate (toLowerCase (trim prompt)) false)) 0 30 in
  if truthy slug then slug else lit "generated-script".

End FileName.

(** ** Continuing never loses the script *)

Lemma continueLoop_app pre rest : forall initialScript acc gen,
  continueLoop (delivered pre ++ rest) initialScript acc gen
  = continueLoop rest initialScript (acc ++ concat pre)
      (match pre with [] => gen | _ => initialScript ++ acc ++ concat pre end).
Proof.
  induction pre as [|c pre IH]; intros initialScript acc gen; simpl.
  - now rewrite app_nil_r.
  - rewrite IH, <- app_assoc. f_equal.
    destruct pre; simpl; now rewrite ?app_nil_r.
Qed.

Lemma stream_shape (stream : list StreamEvent) :
  exists pre, stream = delivered pre \/ exists rest, stream = delivered pre ++ Raise :: rest.
Proof.
  induction stream as [|e stream [pre IH]].
  - exists []. now left.
  - destruct e as [[t]|].
    + exists (t :: pre). destruct IH as [-> | [rest ->]]; [now left|].
      right. now exists rest.
    + exists []. right. now exists stream.
Qed.

Lemma handleContinueScript_delivered g cs :
  handleContinueScript g (Facade.Return (delivered cs))
  = (g ++ concat cs,
     if truthy (trim (concat cs)) then Some (g ++ concat cs) else None).
Proof.
  unfold handleContinueScript.
  rewrite <- (app_nil_r (delivered cs)), continueLoop_app. cbn [continueLoop].
  change (lit "") with (@nil N). cbn [app].
  destruct cs as [|c cs].
  - cbn. now rewrite app_nil_r.
  - destruct (truthy (trim (concat (c :: cs)))); reflexivity.
Qed.

Lemma handleContinueScript_raised g pre rest :
  handleContinueScript g (Facade.Return (delivered pre ++ Raise :: rest))
  = (g ++ concat pre ++ continuationError, None).
Proof.
  unfold handleContinueScript. rewrite continueLoop_app. cbn [continueLoop].
  change (lit "") with (@nil N). cbn [app].
  destruct pre as [|c pre]; [reflexivity|]. now rewrite <- app_assoc.
Qed.

(** X7.  Continuing a script never loses what is on screen.  When the stream
    ends, the script is the old one followed by the chunks in order, and
    that script goes to the version history unless the addition is
    blank; when opening the stream or reading it fails, the script is
    the old one, the chunks received so far and the error marker, and
    nothing goes to the history.  In every case the old script is a
    prefix of the new one. *)
Theorem continuation_keeps_script (generatedScript : jsstring) :
  (forall error,
     handleContinueScript generatedScript (Facade.Throw error)
     = (generatedScript ++ continuationError, None))
  /\ (forall cs,
        handleContinueScript generatedScript (Facade.Return (delivered cs))
        = (generatedScript ++ concat cs,
           if truthy (trim (concat cs))
           then Some (generatedScript ++ concat cs) else None))
  /\ (forall pre rest,
        handleContinueScript generatedScript
          (Facade.Return (delivered pre ++ Raise :: rest))
        = (generatedScript ++ concat pre ++ continuationError, None))
  /\ (forall opened, exists suffix,
        fst (handleContinueScript generatedScript opened)
        = generatedScript ++ suffix).
Proof.
  split; [reflexivity|].
  split; [apply handleContinueScript_delivered|].
  split; [apply handleContinueScript_raised|].
  intros [stream | error]; [|eexists; reflexivity].
  destruct (stream_shape stream) as [pre [-> | [rest ->]]].
  - rewrite handleContinueScript_delivered. eexists. reflexivity.
  - rewrite handleContinueScript_raised. eexists. reflexivity.
Qed.

(** ** Templates *)

Lemma find_after_filter (n : jsstring) (t : ScriptTemplate) l :
  name t = n ->
  find (fun x => JS.eqb (name x) n)
       (filter (fun x => negb (JS.eqb (name x) n)) l ++ [t]) = Some t.
Proof.
  intros E. induction l as [|x l IH]; cbn [filter app find].
  - now rewrite E, JS.eqb_refl.
  - destruct (JS.eqb (name x) n) eqn:Ex; cbn [negb]; [exact IH|].
    cbn [app find]. now rewrite Ex.
Qed.

Lemma find_other_after_filter (n other : jsstring) (t : ScriptTemplate) l :
  name t = n -> other <> n ->
  find (fun x => JS.eqb (name x) other)
       (filter (fun x => negb (JS.eqb (name x) n)) l ++ [t])
  = find (fun x => JS.eqb (name x) other) l.
Proof.
  intros E Hother.
  assert (Ht : JS.eqb (name t) other = false).
  { destruct (JS.eqb (name t) other) eqn:Et; [|reflexivity].
    apply JS.eqb_eq in Et. congruence. }
  induction l as [|x l IH]; cbn [filter app find].
  - now rewrite Ht.
  - destruct (JS.eqb (name x) n) eqn:Ex; cbn [negb].
    + destruct (JS.eqb (name x) other) eqn:Eo; [|exact IH].
      apply JS.eqb_eq in Ex. apply JS.eqb_eq in Eo. congruence.
    + cbn [app find]. destruct (JS.eqb (name x) other); [reflexivity | exact IH].
Qed.

Lemma names_after_filter (n : jsstring) l :
  NoDup (map name l) ->
  NoDup (map name (filter (fun x => negb (JS.eqb (name x) n)) l))
  /\ ~ In n (map name (filter (fun x => negb (JS.eqb (name x) n)) l)).
Proof.
  intros N. split.
  - induction l as [|x l IH]; [constructor|].
    inversion N as [|? ? Hx Hl]; subst. cbn [filter].
    destruct (negb (JS.eqb (name x) n)); [|now apply IH].
    cbn [map]. constructor; [|now apply IH].
    intros Hin. apply Hx. apply in_map_iff in Hin. destruct Hin as [y [Ey Hy]].
    apply filter_In in Hy. apply in_map_iff. exists y. tauto.
  - intros Hin. apply in_map_iff in Hin. destruct Hin as [y [Ey Hy]].
    apply filter_In in Hy. destruct Hy as [_ Hy].
    rewrite <- Ey, JS.eqb_refl in Hy. discriminate.
Qed.

(** What [handleLoadTemplate] hands to the form for a stored
    configuration. *)
Definition asLoaded (c : TemplateConfig) : TemplateConfig :=
  {| scriptType := scriptType c; tone := tone c; format := format c;
     style := if truthy (style c) then style c else lit "Default";
     length := length c; chapters := chapters c |}.

(** X8.  Saving a new template under a name that is not blank and loading it
    back by the trimmed name gives the configuration saved (an empty
    style reads back as "Default"); a template of that name already
    there is replaced, so names that were distinct stay distinct; every
    other name loads what it loaded before; and a deleted name loads
    nothing. *)
Theorem template_save_then_load (newTemplateName : jsstring)
    (currentConfig : TemplateConfig) (templates : list ScriptTemplate) :
  truthy (trim newTemplateName) = true ->
  let saved := handleSaveTemplate newTemplateName currentConfig None templates in
  handleLoadTemplate (trim newTemplateName) saved = Some (asLoaded currentConfig)
  /\ (NoDup (map name templates) -> NoDup (map name saved))
  /\ (forall other, other <> trim newTemplateName ->
                    handleLoadTemplate other saved = handleLoadTemplate other templates)
  /\ handleLoadTemplate (trim newTemplateName)
       (handleDeleteTemplate (trim newTemplateName) saved) = None.
Proof.
  intros Hname. cbv zeta. unfold handleSaveTemplate. rewrite Hname. cbn [negb name].
  split; [|split; [|split]].
  - unfold handleLoadTemplate. rewrite find_after_filter by reflexivity. reflexivity.
  - intros N. destruct (@names_after_filter (trim newTemplateName) templates N) as [N1 N2].
    rewrite map_app. cbn [map name]. apply NoDup_app; [assumption | | ].
    + constructor; [intros [] | constructor].
    + intros x Hx [<- | []]. contradiction.
  - intros other Ho. unfold handleLoadTemplate.
    now rewrite find_other_after_filter by (reflexivity || assumption).
  - unfold handleLoadTemplate, handleDeleteTemplate.
    destruct (find _ (filter _ _)) as [t|] eqn:F; [|reflexivity].
    apply find_some in F. destruct F as [Hin Ht].
    apply filter_In in Hin. destruct Hin as [_ Hin]. rewrite Ht in Hin. discriminate.
Qed.

Lemma template_save_then_load_witness :
  let cfg := {| scriptType := lit "Novel"; tone := lit "Dramatic";
                format := lit "Standard"; style := lit "";
                length := 250; chapters := 2 |} in
  let old := [ {| name := lit "Saga"; config := cfg |};
               {| name := lit "Ad"; config := cfg |} ] in
  let saved := handleSaveTemplate (lit "  Saga ") cfg None old in
  handleLoadTemplate (trim (lit "  Saga ")) saved = Some (asLoaded cfg)
  /\ (NoDup (map name old) -> NoDup (map name saved))
  /\ (forall other, other <> trim (lit "  Saga ") ->
                    handleLoadTemplate other saved = handleLoadTemplate other old)
  /\ handleLoadTemplate (trim (lit "  Saga "))
       (handleDeleteTemplate (trim (lit "  Saga ")) saved) = None.
Proof.
  intros cfg old.
  apply (@template_save_then_load (lit "  Saga ") cfg old). reflexivity.
Defined.

(** ** File names *)

Lemma forallb_firstn_slug (l : jsstring) : forall k,
  forallb slugChar l = true -> forallb slugChar (firstn k l) = true.
Proof.
  induction l as [|x l IH]; intros k H; [now destruct k|].
  destruct k as [|k]; [reflexivity|].
  cbn [firstn forallb] in *. apply andb_true_iff in H. destruct H as [Hx H].
  now rewrite Hx, IH.
Qed.

(** X9.  Whatever the prompt is, the file name of a downloaded script is not
    empty, has at most 30 code units and consists of lower-case letters,
    digits and hyphens only. *)
Theorem script_file_name_is_a_slug
    (toLowerCase : jsstring -> jsstring) (prompt : jsstring) :
  fileName toLowerCase prompt <> []
  /\ (List.length (fileName toLowerCase prompt) <= 30)%nat
  /\ forallb slugChar (fileName toLowerCase prompt) = true.
Proof.
  unfold fileName.
  set (cleaned := filter slugChar (hyphenate (toLowerCase (trim prompt)) false)).
  destruct (@ChunkText.substring0_length cleaned 30 ltac:(lia)) as [L _].
  assert (F : forallb slugChar (substring cleaned 0 30) = true).
  { rewrite ChunkTextContent.substring_from_zero.
    apply forallb_firstn_slug. subst cleaned. apply forallb_filter. }
  destruct (substring cleaned 0 30) as [|c slug] eqn:E.
  - cbn [truthy]. split; [discriminate|]. split; [vm_compute; lia | reflexivity].
  - cbn [truthy]. split; [discriminate|]. split; [lia | exact F].
Qed.

End ScriptGenie.

(* ================================================================== *)
(** * Histories over many saves *)
(* ================================================================== *)

Module HistoryCap.

Import History.




Section Cap.

Context {A : Type}.



End Cap.



End HistoryCap.

(* ================================================================== *)
(** * Grounding sources: de-duplicating twice *)
(* ================================================================== *)

Module SourcesAgain.

Import Facade.

Lemma keepFirst_distinct l : forall earlier,
  NoDup (map uri l) ->
  (forall s, In s l -> ~ In (uri s) (map uri earlier)) ->
  keepFirstByUri earlier l = l.
Proof.
  induction l as [|s l IH]; intros earlier N D; [reflexivity|].
  cbn [keepFirstByUri]. inversion N as [|? ? Hs Nl]; subst.
  destruct (existsb (fun e => strict_eqb (uri e) (uri s)) earlier) eqn:E.
  - apply existsb_uri in E. exfalso. apply (D s); [now left | exact E].
  - f_equal. apply IH; [exact Nl|].
    intros x Hx Hin. rewrite map_app, in_app_iff in Hin. destruct Hin as [Hin | Hin].
    + apply (D x); [now right | exact Hin].
    + destruct Hin as [Heq | []]. apply Hs. rewrite Heq. now apply in_map.
Qed.

(** X12.  De-duplicating grounding sources changes nothing in a list whose
    URIs are already distinct; in particular de-duplicating a second
    time changes nothing, and the result is never longer than the
    input. *)
Theorem dedupe_is_idempotent (self : list Source) :
  (NoDup (map uri self) -> dedupeSources self = self)
  /\ dedupeSources (dedupeSources self) = dedupeSources self
  /\ (length (dedupeSources self) <= length self)%nat.
Proof.
  assert (H : forall l, NoDup (map uri l) -> dedupeSources l = l).
  { intros l N. rewrite dedupeSources_keepFirst.
    apply keepFirst_distinct; [exact N | intros s _ []]. }
  split; [apply H|]. split.
  - apply H. rewrite dedupeSources_keepFirst. apply keepFirst_NoDup.
  - rewrite dedupeSources_keepFirst.
    pose proof (keepFirst_subseq self []) as S.
    induction S; simpl; lia.
Qed.

End SourcesAgain.

(* ================================================================== *)
(** * The poller: pacing and the handles it passes on *)
(* ================================================================== *)

Module PollPacing.

Import Facade VideoFactory.

(** Every call of [checkVideoOperation] comes right after a sleep of ten
    seconds. *)
Fixpoint paced (effects : list Effect) : bool :=
  match effects with
  | [] => true
  | Sleep ms :: rest =>
      match rest with
      | Poll _ :: rest' => (ms =? 10000)%Z && paced rest'
      | _ => paced rest
      end
  | Poll _ :: _ => false
  | _ :: rest => paced rest
  end.

(** The handles given to [checkVideoOperation], in order. *)
Fixpoint polledHandles (effects : list Effect) : list GenerateVideosOperation :=
  match effects with
  | [] => []
  | Poll operation :: rest => operation :: polledHandles rest
  | _ :: rest => polledHandles rest
  end.

(** The number of sleeps. *)
Fixpoint sleeps (effects : list Effect) : nat :=
  match effects with
  | [] => 0
  | Sleep _ :: rest => S (sleeps rest)
  | _ :: rest => sleeps rest
  end.

(** The handles the vendor answers with. *)
Definition answered (responses : list (VendorOutcome GenerateVideosOperation))
  : list GenerateVideosOperation :=
  flat_map (fun v => match v with
                     | Responds operation => [operation]
                     | Fails _ _ => []
                     end) responses.

Lemma surface_quiet polled rest :
  paced (surface polled ++ rest) = paced rest
  /\ polledHandles (surface polled ++ rest) = polledHandles rest
  /\ sleeps (surface polled ++ rest) = sleeps rest.
Proof.
  unfold surface.
  destruct (progressPercent polled) as [p|];
    [destruct (truthyNumber (Some p))|];
    try destruct (strict_eqb _ _); repeat split; reflexivity.
Qed.

(** X13.  The poller never asks twice in a row: each poll follows a sleep of
    ten seconds, so there are as many sleeps as polls; it polls at most
    once per answer; and it passes on the handles it was given, first
    the submitted one and then, each time, the handle the previous poll
    returned. *)
Theorem poller_sleeps_and_threads_handles
    (responses : list (VendorOutcome GenerateVideosOperation))
    (operation : GenerateVideosOperation) :
  let effects := snd (pollOperation responses operation) in
  paced effects = true
  /\ sleeps effects = pollCalls effects
  /\ (pollCalls effects <= length responses)%nat
  /\ polledHandles effects
     = firstn (pollCalls effects) (operation :: answered responses).
Proof.
  cbv zeta. revert operation.
  induction responses as [|vendor later IH]; intros operation.
  - cbn [pollOperation]. destruct (isDone operation); repeat split; simpl; lia.
  - destruct (isDone operation) eqn:D.
    + rewrite (pollOperation_done _ _ D). repeat split; simpl; lia.
    + rewrite (pollOperation_step _ _ _ D).
      destruct vendor as [polled | m s].
      * rewrite checkVideoOperation_responds. specialize (IH polled).
        destruct (pollOperation later polled) as [outcome effects].
        cbn [snd] in *. destruct IH as [P [S0 [C H]]].
        destruct (surface_quiet polled effects) as [Q1 [Q2 Q3]].
        cbn [paced polledHandles sleeps pollCalls].
        rewrite Q1, Q2, Q3, pollCalls_app, pollCalls_surface. cbn [Nat.add].
        repeat split.
        -- rewrite P. reflexivity.
        -- now rewrite S0.
        -- simpl. lia.
        -- cbn [answered flat_map app firstn]. f_equal. exact H.
      * destruct (checkVideoOperation_fails m s) as [error T]. rewrite T.
        repeat split; simpl; lia.
Qed.

End PollPacing.

(* ================================================================== *)
(** * Live talk: the playback queue over a whole session *)
(* ================================================================== *)

Module PlaybackQueue.

Import LiveTalk.

Local Open Scope Q_scope.

(** A message together with the clock and the playback rate its handler
    reads. *)
Record Arrival := {
  currentTime : Q;
  rate : Q;
  message : LiveServerMessage
}.

(** The handlers of successive messages, one after the other. *)
Definition handleAll (arrivals : list Arrival) (st : Playback) : Playback :=
  fold_left (fun st a => onmessage (currentTime a) (rate a) (message a) st)
            arrivals st.

(** No source starts before the one queued before it has ended. *)
Fixpoint ordered (l : list Source) : Prop :=
  match l with
  | s :: (s' :: _) as rest => endAt s <= startAt s' /\ ordered rest
  | _ => True
  end.

(** The buffer durations the messages carry, in order of arrival. *)
Definition audioOf (arrivals : list Arrival) : list Q :=
  flat_map (fun a => match audio (message a) with
                     | Some d => [d]
                     | None => []
                     end) arrivals.

(** The sources are in order and the last one ends by the cursor. *)
Definition settled (st : Playback) : Prop :=
  ordered (sources st)
  /\ Forall (fun s => endAt s <= nextStartTime st) (firstn 1 (rev (sources st))).

Lemma ordered_snoc (l : list Source) (s : Source) :
  ordered l ->
  Forall (fun x => endAt x <= startAt s) (firstn 1 (rev l)) ->
  ordered (l ++ [s]).
Proof.
  induction l as [|x l IH]; intros O L; [exact I|].
  destruct l as [|y l].
  - cbn in *. inversion L; subst. split; [assumption | exact I].
  - destruct O as [O1 O2]. split; [exact O1|]. apply IH; [exact O2|].
    cbn [rev] in *. destruct (rev l ++ [y]) eqn:E.
    + destruct (rev l); discriminate.
    + exact L.
Qed.

Lemma onmessage_settled (t r : Q) (m : LiveServerMessage) (st : Playback) :
  settled st -> settled (onmessage t r m st).
Proof.
  intros [O L]. unfold onmessage. destruct (audio m) as [d|]; [|now split].
  unfold settled, schedule, clamp. cbn [nextStartTime sources]. split.
  - apply ordered_snoc; [exact O|]. cbn [startAt].
    eapply Forall_impl; [|exact L]. intros s Hs. cbn beta in *.
    eapply Qle_trans; [exact Hs | apply Q.le_max_l].
  - rewrite rev_app_distr. cbn. constructor; [|constructor].
    unfold endAt, playTime. cbn. apply Qle_refl.
Qed.

Lemma handleAll_settled (arrivals : list Arrival) : forall st,
  settled st -> settled (handleAll arrivals st).
Proof.
  induction arrivals as [|a arrivals IH]; intros st S; [exact S|].
  cbn [handleAll fold_left]. apply IH. now apply onmessage_settled.
Qed.

Lemma handleAll_durations (arrivals : list Arrival) : forall st,
  map duration (sources (handleAll arrivals st))
  = map duration (sources st) ++ audioOf arrivals.
Proof.
  induction arrivals as [|a arrivals IH]; intros st.
  - cbn. now rewrite app_nil_r.
  - cbn [handleAll fold_left]. fold (handleAll arrivals). rewrite IH.
    unfold onmessage, audioOf. cbn [flat_map].
    destruct (audio (message a)) as [d|]; [|reflexivity].
    cbn [schedule sources clamp]. rewrite map_app, <- app_assoc. reflexivity.
Qed.

(** X17.  Over a whole session, whatever the arrival times, rates and
    durations are: the sources are started in the order in which the
    audio chunks arrive, one source per chunk, none dropped and none
    repeated; no source starts before the previous one has ended; and a
    source, once queued, starts no earlier than the clock its handler
    read and no earlier than the cursor it found. *)
Theorem playback_never_overlaps (arrivals : list Arrival) :
  let final := handleAll arrivals initial in
  ordered (sources final)
  /\ map duration (sources final) = audioOf arrivals
  /\ (forall (st : Playback) (t r d : Q),
        exists s,
          sources (onmessage t r {| audio := Some d |} st) = sources st ++ [s]
          /\ t <= startAt s
          /\ nextStartTime st <= startAt s
          /\ nextStartTime (onmessage t r {| audio := Some d |} st) = endAt s).
Proof.
  cbv zeta. split; [|split].
  - apply (handleAll_settled arrivals (st := initial)). split; [exact I | constructor].
  - now rewrite handleAll_durations.
  - intros st t r d. eexists. split; [reflexivity|].
    cbn [startAt]. split; [apply Q.le_max_r|]. split; [apply Q.le_max_l | reflexivity].
Qed.

(** Two handlers that overlap at the [await]: both clamp at clock 0,
    then both start their sources. *)
Lemma overlapping_handlers_stay_chained_witness :
  chained 0 (sources (run [Clamped 0; Clamped 0; Started 2 1; Started 3 1] initial))
          (nextStartTime (run [Clamped 0; Clamped 0; Started 2 1; Started 3 1] initial)).
Proof.
  apply (@overlapping_handlers_stay_chained
           [Clamped 0; Clamped 0; Started 2 1; Started 3 1] initial 0).
  - reflexivity.
  - cbn. repeat split; apply Qle_refl.
Defined.

End PlaybackQueue.

(* ================================================================== *)
(** * Live talk: assembling the transcript in [onmessage] *)
(* ================================================================== *)

Module Transcript.

(** [TranscriptionEntry] of [types.ts]. *)
Inductive Speaker := user | model.

Record TranscriptionEntry := {
  speaker : Speaker;
  text : jsstring
}.

(** A server message as the transcript branch reads it:
    [serverContent?.inputTranscription?.text],
    [serverContent?.outputTranscription?.text] and
    [serverContent?.turnComplete]. *)
Record LiveServerMessage := {
  inputTranscription : option jsstring;
  outputTranscription : option jsstring;
  turnComplete : bool
}.

(** The two accumulator references and the [transcriptions] state. *)
Record State := {
  currentInputTranscription : jsstring;
  currentOutputTranscription : jsstring;
  transcriptions : list TranscriptionEntry
}.

(** [acc += text] under [if (text)]. *)
Definition accumulate (acc : jsstring) (fragment : option jsstring) : jsstring :=
  match fragment with
  | Some t => if truthy t then acc ++ t else acc
  | None => acc
  end.

(** [...(t ? [{ speaker, text: t }] : [])]. *)
Definition entryFor (who : Speaker) (t : jsstring) : list TranscriptionEntry :=
  if truthy t then [ {| speaker := who; text := t |} ] else [].

(** The first three [if]s of [onmessage]. *)
Definition onmessage (m : LiveServerMessage) (st : State) : State :=
  let input := accumulate (currentInputTranscription st) (inputTranscription m) in
  let output := accumulate (currentOutputTranscription st) (outputTranscription m) in
  if turnComplete m then
    let userInput := trim input in
    let modelOutput := trim output in
    {| currentInputTranscription := lit "";
       currentOutputTranscription := lit "";
       transcriptions :=
         if truthy userInput || truthy modelOutput
         then transcriptions st ++ entryFor user userInput ++ entryFor model modelOutput
         else transcriptions st |}
  else
    {| currentInputTranscription := input;
       currentOutputTranscription := output;
       transcriptions := transcriptions st |}.

Definition handleAll (ms : list LiveServerMessage) (st : State) : State :=
  fold_left (fun st m => onmessage m st) ms st.

(** The messages of one turn: fragments for either side, then the
    message that completes the turn. *)
Definition turn (fragments : list (option jsstring * option jsstring))
    (closing : option jsstring * option jsstring) : list LiveServerMessage :=
  map (fun f => {| inputTranscription := fst f; outputTranscription := snd f;
                   turnComplete := false |}) fragments
  ++ [ {| inputTranscription := fst closing; outputTranscription := snd closing;
          turnComplete := true |} ].

(** The text of the fragments, joined. *)
Definition joined (fragments : list (option jsstring)) : jsstring :=
  concat (flat_map (fun f => match f with Some t => [t] | None => [] end) fragments).

Lemma accumulate_append acc fragment :
  accumulate acc fragment = acc ++ joined [fragment].
Proof.
  unfold joined. destruct fragment as [t|]; cbn; [|now rewrite app_nil_r].
  rewrite app_nil_r. destruct t; cbn; [now rewrite app_nil_r | reflexivity].
Qed.

Lemma joined_cons f fs : joined (f :: fs) = joined [f] ++ joined fs.
Proof.
  unfold joined. cbn [flat_map]. rewrite app_nil_r, concat_app. reflexivity.
Qed.

Lemma fragments_accumulate fragments : forall st,
  handleAll (map (fun f => {| inputTranscription := fst f;
                              outputTranscription := snd f;
                              turnComplete := false |}) fragments) st
  = {| currentInputTranscription :=
         currentInputTranscription st ++ joined (map fst fragments);
       currentOutputTranscription :=
         currentOutputTranscription st ++ joined (map snd fragments);
       transcriptions := transcriptions st |}.
Proof.
  induction fragments as [|f fragments IH]; intros st.
  - cbn. rewrite !app_nil_r. now destruct st.
  - cbn [map handleAll fold_left]. fold (handleAll (map (fun f => {|
        inputTranscription := fst f; outputTranscription := snd f;
        turnComplete := false |}) fragments)).
    rewrite IH. unfold onmessage.
    cbn [turnComplete inputTranscription outputTranscription
         currentInputTranscription currentOutputTranscription transcriptions].
    rewrite (joined_cons (fst f) (map fst fragments)).
    rewrite (joined_cons (snd f) (map snd fragments)).
    rewrite !accumulate_append, <- !app_assoc. reflexivity.
Qed.

Lemma entryFor_nonempty who t :
  Forall (fun e => text e <> []) (entryFor who t).
Proof.
  unfold entryFor. destruct t; cbn; constructor; [discriminate | constructor].
Qed.

Lemma onmessage_nonempty m st :
  Forall (fun e => text e <> []) (transcriptions st) ->
  Forall (fun e => text e <> []) (transcriptions (onmessage m st)).
Proof.
  intros F. unfold onmessage. destruct (turnComplete m); cbn [transcriptions]; [|exact F].
  destruct (truthy _ || truthy _); [|exact F].
  repeat (apply Forall_app; split); trivial; apply entryFor_nonempty.
Qed.

(** X19.  One turn of the conversation: the fragments of each side are joined
    in order of arrival onto what the accumulators held, and when the
    turn completes the two texts are trimmed and appended to the
    transcript, the user's first, a side with nothing but white space
    being left out; both accumulators are then empty.  No entry of the
    transcript ever has an empty text. *)
Theorem transcript_turn
    (fragments : list (option jsstring * option jsstring))
    (closing : option jsstring * option jsstring) (st : State) :
  let userInput :=
    trim (currentInputTranscription st
          ++ joined (map fst fragments ++ [fst closing])) in
  let modelOutput :=
    trim (currentOutputTranscription st
          ++ joined (map snd fragments ++ [snd closing])) in
  handleAll (turn fragments closing) st
  = {| currentInputTranscription := lit "";
       currentOutputTranscription := lit "";
       transcriptions :=
         transcriptions st ++ entryFor user userInput ++ entryFor model modelOutput |}
  /\ (forall ms, Forall (fun e => text e <> []) (transcriptions st) ->
                 Forall (fun e => text e <> []) (transcriptions (handleAll ms st))).
Proof.
  cbv zeta. split.
  - unfold turn, handleAll. rewrite fold_left_app.
    fold (handleAll (map (fun f => {| inputTranscription := fst f;
                                      outputTranscription := snd f;
                                      turnComplete := false |}) fragments) st).
    rewrite fragments_accumulate. cbn [fold_left]. unfold onmessage.
    cbn [turnComplete inputTranscription outputTranscription
         currentInputTranscription currentOutputTranscription transcriptions].
    rewrite !accumulate_append.
    assert (J : forall fs f, joined (fs ++ [f]) = joined fs ++ joined [f]).
    { intros fs f. unfold joined. now rewrite flat_map_app, concat_app. }
    rewrite !J, !app_assoc. f_equal.
    set (u := trim _). set (m := trim _).
    destruct (truthy u) eqn:Eu; destruct (truthy m) eqn:Em; cbn [orb];
      try reflexivity.
    unfold entryFor. rewrite Eu, Em. now rewrite !app_nil_r.
  - intros ms. revert st. induction ms as [|m ms IH]; intros st F; [exact F|].
    cbn [handleAll fold_left]. apply IH. now apply onmessage_nonempty.
Qed.

End Transcript.

(* ================================================================== *)
(** * The video panel: [VideoFactoryView.handleSubmit] *)
(* ================================================================== *)

Module VideoPanel.

Import Facade VideoFactory.

Inductive ApiKeyStatus := valid | invalid | unknown.

Record VideoHistoryEntry := {
  id : N;
  prompt : jsstring;
  entryVideoUrl : jsstring;
  thumbnailUrl : jsstring
}.

(** The state [handleSubmit] writes. *)
Record Panel := {
  isLoading : bool;
  progress : Z;
  videoUrl : option jsstring;
  error : option jsstring;
  apiKeyStatus : ApiKeyStatus;
  videoHistory : list VideoHistoryEntry
}.

(** What fetching the finished video did: it gave a blob, for which
    [URL.createObjectURL] made [objectUrl]; it answered with a status
    that is not ok; or the fetch or the reading of the body threw. *)
Inductive Download :=
| Downloaded (objectUrl : jsstring)
| BadStatus (status : N)
| DownloadFails (message : jsstring).

Definition keyErrorText : jsstring :=
  lit "API Key error. Please re-select a key for a project with billing enabled. It may take a moment for the new key to be active.".

Definition safetyErrorText : jsstring :=
  lit "Your prompt may have violated the safety policy. Please modify your prompt and try again.".

Definition quotaErrorText : jsstring :=
  lit "You have exceeded your usage quota. Please check your project settings or try again later.".

Definition unexpectedErrorText : jsstring :=
  lit "An unexpected error occurred during video generation. Please try again.".

Definition noVideoText : jsstring :=
  lit "Video generation finished, but the final video was not available. This can be a temporary issue. Please try again.".

(** [`Failed to fetch video data. Status: ${response.status}`]. *)
Definition badStatusMessage (status : N) : jsstring :=
  lit "Failed to fetch video data. Status: "
  ++ lit (DecimalString.NilZero.string_of_uint (N.to_uint status)).

(** The value of the [progress] state after the effects of the poller,
    [before] being its value when polling starts. *)
Definition progressAfter (before : Z) (effects : list Effect) : Z :=
  last (progressLog effects) before.

Section HandleSubmit.

(** [String.prototype.toLowerCase], a function of the host. *)
Variable toLowerCase : jsstring -> jsstring.

(** The [catch] of [handleSubmit]: the key status and the error text for
    a caught error. *)
Definition explain (err : Exn) (status : ApiKeyStatus) : ApiKeyStatus * jsstring :=
  let errorMessage := toLowerCase (message err) in
  if includes errorMessage (lit "api key") || includes errorMessage (lit "billing")
     || includes errorMessage (lit "permission denied")
     || includes errorMessage (lit "was not found")
  then (invalid, keyErrorText)
  else if includes errorMessage (lit "prompt was blocked")
          || includes errorMessage (lit "safety policy")
  then (status, safetyErrorText)
  else if includes errorMessage (lit "quota") || includes errorMessage (lit "rate limit")
  then (status, quotaErrorText)
  else (status, unexpectedErrorText).

(** The panel after the [catch] and the [finally]. *)
Definition failed (err : Exn) (progressNow : Z) (panel : Panel) : Panel :=
  {| isLoading := false; progress := progressNow; videoUrl := None;
     error := Some (snd (explain err (apiKeyStatus panel)));
     apiKeyStatus := fst (explain err (apiKeyStatus panel));
     videoHistory := videoHistory panel |}.

(** [handleSubmit]: [submitted] is what the vendor side does at
    [generateVideo], [responses] what it does at the successive polls,
    [download] and [thumbnail] what fetching the video and
    [generateVideoThumbnail] do, [now] the value of [Date.now()].  The
    result is the panel once the handler has finished; there is none
    while the poller is still waiting. *)
Definition handleSubmit (promptText : jsstring) (now : N)
    (submitted : VendorOutcome GenerateVideosOperation)
    (responses : list (VendorOutcome GenerateVideosOperation))
    (download : Download) (thumbnail : option jsstring)
    (panel : Panel) : option Panel :=
  if negb (truthy (trim promptText)) then Some panel
  else
    match generateVideo submitted with
    | Throw err => Some (failed err 0 panel)
    | Return operation =>
        match pollOperation responses operation with
        | (StillWaiting _, _) => None
        | (Threw err, effects) => Some (failed err (progressAfter 0 effects) panel)
        | (Returned finalOperation, effects) =>
            let progressNow := progressAfter 0 effects in
            match or_else (videoUri finalOperation) None with
            | Some downloadLink =>
                match download with
                | Downloaded url =>
                    Some {| isLoading := false; progress := progressNow;
                            videoUrl := Some url; error := None;
                            apiKeyStatus := apiKeyStatus panel;
                            videoHistory :=
                              match thumbnail with
                              | Some thumbnailUrl =>
                                  let newHistoryEntry :=
                                    {| id := now; prompt := promptText;
                                       entryVideoUrl := url;
                                       thumbnailUrl := thumbnailUrl |} in
                                  History.slice0 5 (newHistoryEntry :: videoHistory panel)
                              | None => videoHistory panel
                              end |}
                | BadStatus status =>
                    Some (failed (OtherError (badStatusMessage status) None)
                                 progressNow panel)
                | DownloadFails m =>
                    Some (failed (OtherError m None) progressNow panel)
                end
            | None =>
                Some {| isLoading := false; progress := progressNow;
                        videoUrl := None; error := Some noVideoText;
                        apiKeyStatus := apiKeyStatus panel;
                        videoHistory := videoHistory panel |}
            end
        end
    end.

End HandleSubmit.

(** [toLowerCase] on the letters A to Z only, for the examples. *)
Definition asciiLower (s : jsstring) : jsstring :=
  map (fun c => if (65 <=? c)%N && (c <=? 90)%N then (c + 32)%N else c) s.

(** A panel before its first job. *)
Definition idle : Panel :=
  {| isLoading := false; progress := 0; videoUrl := None; error := None;
     apiKeyStatus := valid; videoHistory := [] |}.

(** A handle for a finished job that carries no video. *)
Definition doneWithoutVideo : GenerateVideosOperation :=
  {| done := Some true; progressPercent := None; state := None; videoUri := None |}.

(** ** How a submission ends *)

Lemma returned_log_ends_at_100 responses : forall operation final effects,
  pollOperation responses operation = (Returned final, effects) ->
  exists earlier, progressLog effects = earlier ++ [100%Z].
Proof.
  induction responses as [|vendor later IH]; intros operation final effects H.
  - destruct (isDone operation) eqn:D.
    + rewrite (pollOperation_done _ _ D) in H. inversion H; subst. now exists [].
    + cbn [pollOperation] in H. rewrite D in H. discriminate H.
  - destruct (isDone operation) eqn:D.
    + rewrite (pollOperation_done _ _ D) in H. inversion H; subst. now exists [].
    + rewrite (pollOperation_step _ _ _ D) in H.
      destruct vendor as [polled | m s].
      * rewrite checkVideoOperation_responds in H.
        destruct (pollOperation later polled) as [outcome effects'] eqn:R.
        inversion H; subst. destruct (IH _ _ _ R) as [earlier E].
        exists (progressLog (surface polled) ++ earlier).
        cbn [progressLog]. now rewrite progressLog_app, E, app_assoc.
      * destruct (checkVideoOperation_fails m s) as [error T].
        rewrite T in H. discriminate H.
Qed.

Lemma returned_ends_at_100 responses operation final effects :
  pollOperation responses operation = (Returned final, effects) ->
  progressAfter 0 effects = 100%Z.
Proof.
  intros H. destruct (returned_log_ends_at_100 _ _ H) as [earlier E].
  unfold progressAfter. rewrite E. apply last_last.
Qed.

(** X14.  A submission with a prompt that is not blank ends in exactly one of
    two ways, and always with the loading flag off.  Either a video is
    shown: there is no error, the progress is 100, the key status is
    untouched, and the history is unchanged or holds the new video
    first and at most five entries.  Or no video is shown: there is an
    error text and the history is unchanged.  A blank prompt changes
    nothing.  The handler is unfinished only while the poller waits. *)
Theorem video_submission_ends_one_way
    (toLowerCase : jsstring -> jsstring) (promptText : jsstring) (now : N)
    (submitted : VendorOutcome GenerateVideosOperation)
    (responses : list (VendorOutcome GenerateVideosOperation))
    (download : Download) (thumbnail : option jsstring) (panel : Panel) :
  match handleSubmit toLowerCase promptText now submitted responses
                     download thumbnail panel with
  | None =>
      exists operation current,
        submitted = Responds operation
        /\ fst (pollOperation responses operation) = StillWaiting current
  | Some final =>
      if truthy (trim promptText) then
        isLoading final = false
        /\ ((exists url,
               videoUrl final = Some url /\ error final = None
               /\ progress final = 100%Z
               /\ apiKeyStatus final = apiKeyStatus panel
               /\ (videoHistory final = videoHistory panel
                   \/ exists entry,
                        entryVideoUrl entry = url
                        /\ videoHistory final
                           = firstn 5 (entry :: videoHistory panel)))
            \/ (videoUrl final = None
                /\ (exists text, error final = Some text)
                /\ videoHistory final = videoHistory panel))
      else final = panel
  end.
Proof.
  unfold handleSubmit. destruct (truthy (trim promptText)); cbn [negb]; [|reflexivity].
  destruct submitted as [operation | m s].
  2:{ unfold generateVideo. cbn [await bind try_catch]. unfold handleApiError.
      destruct (keyProblem (OtherError m s)); cbn [bind];
        (split; [reflexivity|]); right; cbn; eauto. }
  unfold generateVideo. cbn [await bind try_catch].
  destruct (pollOperation responses operation) as [[final | err | current] effects] eqn:R.
  - rewrite (returned_ends_at_100 _ _ R).
    destruct (or_else (videoUri final) None) as [downloadLink|].
    + destruct download as [url | status | m].
      * split; [reflexivity|]. left. exists url. cbn.
        repeat split. destruct thumbnail as [t|]; [|now left].
        right. eexists. split; [|reflexivity]. reflexivity.
      * split; [reflexivity|]. right. cbn. eauto.
      * split; [reflexivity|]. right. cbn. eauto.
    + split; [reflexivity|]. right. cbn. eauto.
  - split; [reflexivity|]. right. cbn. eauto.
  - exists operation, current. split; [reflexivity|]. now rewrite R.
Qed.

(** X15.  A job that finishes without a video is reported as such: the panel
    shows the text saying that the video was not available, shows no
    video, keeps the key status and the history, and stops loading. *)
Theorem finished_without_video_is_reported
    (toLowerCase : jsstring -> jsstring) (promptText : jsstring) (now : N)
    (operation finalOperation : GenerateVideosOperation)
    (responses : list (VendorOutcome GenerateVideosOperation))
    (download : Download) (thumbnail : option jsstring) (panel : Panel) :
  truthy (trim promptText) = true ->
  fst (pollOperation responses operation) = Returned finalOperation ->
  or_else (videoUri finalOperation) None = None ->
  handleSubmit toLowerCase promptText now (Responds operation) responses
               download thumbnail panel
  = Some {| isLoading := false; progress := 100; videoUrl := None;
            error := Some noVideoText; apiKeyStatus := apiKeyStatus panel;
            videoHistory := videoHistory panel |}.
Proof.
  intros Hp Hr Hv. unfold handleSubmit. rewrite Hp. cbn [negb].
  unfold generateVideo. cbn [await bind try_catch].
  destruct (pollOperation responses operation) as [outcome effects] eqn:R.
  cbn [fst] in Hr. subst outcome.
  now rewrite (returned_ends_at_100 _ _ R), Hv.
Qed.

Lemma finished_without_video_is_reported_witness :
  handleSubmit asciiLower (lit "a goldfish") 1 (Responds VideoFactory.submitted)
    [Responds doneWithoutVideo] (Downloaded (lit "blob:1")) None idle
  = Some {| isLoading := false; progress := 100; videoUrl := None;
            error := Some noVideoText; apiKeyStatus := apiKeyStatus idle;
            videoHistory := videoHistory idle |}.
Proof.
  apply (@finished_without_video_is_reported asciiLower (lit "a goldfish") 1
           VideoFactory.submitted doneWithoutVideo [Responds doneWithoutVideo]
           (Downloaded (lit "blob:1")) None idle); reflexivity.
Defined.

(** X16.  A key problem found by the facade invalidates the key in the panel:
    when starting the job or a poll fails with an error that
    [handleApiError] takes for a key problem, the panel marks the key
    invalid and shows the key error text.  The host's [toLowerCase] is
    taken to lower the letters of the facade's message. *)
Theorem key_problem_invalidates_key
    (toLowerCase : jsstring -> jsstring) (promptText : jsstring) (now : N)
    (m : jsstring) (s : option Z) (operation : GenerateVideosOperation)
    (later : list (VendorOutcome GenerateVideosOperation))
    (download : Download) (thumbnail : option jsstring) (panel : Panel) :
  toLowerCase (lit "API key is invalid or has insufficient permissions.")
    = lit "api key is invalid or has insufficient permissions." ->
  truthy (trim promptText) = true ->
  keyProblem (OtherError m s) = true ->
  isDone operation = false ->
  let keyInvalid :=
    Some {| isLoading := false; progress := 0; videoUrl := None;
            error := Some keyErrorText; apiKeyStatus := invalid;
            videoHistory := videoHistory panel |} in
  handleSubmit toLowerCase promptText now (Fails m s) later
               download thumbnail panel = keyInvalid
  /\ handleSubmit toLowerCase promptText now (Responds operation)
                  (Fails m s :: later) download thumbnail panel = keyInvalid.
Proof.
  intros Hlower Hp Hk Hd. cbv zeta.
  assert (E : explain toLowerCase invalidKey (apiKeyStatus panel)
              = (invalid, keyErrorText)).
  { unfold explain, invalidKey. cbn [message]. rewrite Hlower. reflexivity. }
  unfold handleSubmit. rewrite Hp. cbn [negb]. split.
  - unfold generateVideo. cbn [await bind try_catch]. unfold handleApiError.
    rewrite Hk. cbn [bind]. unfold failed. fold invalidKey. now rewrite E.
  - unfold generateVideo. cbn [await bind try_catch].
    rewrite (pollOperation_step _ _ _ Hd).
    unfold checkVideoOperation. cbn [await try_catch]. unfold handleApiError.
    rewrite Hk. cbn [bind]. unfold failed. fold invalidKey. now rewrite E.
Qed.

Lemma key_problem_invalidates_key_witness :
  let keyInvalid :=
    Some {| isLoading := false; progress := 0; videoUrl := None;
            error := Some keyErrorText; apiKeyStatus := invalid;
            videoHistory := videoHistory idle |} in
  handleSubmit asciiLower (lit "a goldfish") 1
    (Fails (lit "Requested entity was not found.") None) []
    (Downloaded (lit "blob:1")) None idle = keyInvalid
  /\ handleSubmit asciiLower (lit "a goldfish") 1 (Responds VideoFactory.submitted)
       (Fails (lit "Requested entity was not found.") None :: [])
       (Downloaded (lit "blob:1")) None idle = keyInvalid.
Proof.
  apply (@key_problem_invalidates_key asciiLower (lit "a goldfish") 1
           (lit "Requested entity was not found.") None VideoFactory.submitted []
           (Downloaded (lit "blob:1")) None idle); reflexivity.
Defined.

End VideoPanel.

(* ================================================================== *)
(** * Reading a script aloud: the loop of [handleToggleReading] *)
(* ================================================================== *)

Module ReadAloud.

Import Facade.

Local Open Scope Q_scope.

(** What happens around one chunk of the script: the value of
    [isStoppingRef.current] at each of the three places the loop reads
    it, what the vendor side does at [generateTts], and the duration of
    the decoded buffer ([None] when decoding throws). *)
Record ChunkRun := {
  stoppingAtTop : bool;
  tts : VendorOutcome (option jsstring);
  stoppingAfterTts : bool;
  decoded : option Q;
  stoppingAfterDecode : bool
}.

(** How the loop ended: it ran out of chunks or left through a
    [break], or an exception took it to the [catch]. *)
Inductive Exit := Left | Caught.

(** The loop; [nextStartTime] is the local cursor and [started] the
    sources started so far, each with its start time and the duration
    of its buffer.
<<
  for (const chunk of chunks) {
      if (isStoppingRef.current) break;
      const audioBase64 = await generateTts(chunk);
      if (audioBase64 && !isStoppingRef.current) {
          const audioData = decode(audioBase64);
          const audioBuffer = await decodeAudioData(audioData, audioCtx, 24000, 1);
          if (isStoppingRef.current) break;
          ...
          source.start(nextStartTime);
          audioSourcesRef.current.push(source);
          nextStartTime += audioBuffer.duration;
      }
  }
>> *)
Fixpoint readLoop (API_KEY : option jsstring) (runs : list ChunkRun)
    (nextStartTime : Q) (started : list (Q * Q)) : Exit * Q * list (Q * Q) :=
  match runs with
  | [] => (Left, nextStartTime, started)
  | r :: later =>
      if stoppingAtTop r then (Left, nextStartTime, started)
      else
        match generateTts API_KEY (tts r) with
        | Throw _ => (Caught, nextStartTime, started)
        | Return audioBase64 =>
            match or_else audioBase64 None with
            | Some _ =>
                if negb (stoppingAfterTts r) then
                  match decoded r with
                  | None => (Caught, nextStartTime, started)
                  | Some duration =>
                      if stoppingAfterDecode r then (Left, nextStartTime, started)
                      else readLoop API_KEY later (nextStartTime + duration)
                                    (started ++ [(nextStartTime, duration)])
                  end
                else readLoop API_KEY later nextStartTime started
            | None => readLoop API_KEY later nextStartTime started
            end
        end
  end.

(** Sources of the given durations played back to back from [start]. *)
Fixpoint backToBack (start : Q) (durations : list Q) : list (Q * Q) :=
  match durations with
  | [] => []
  | d :: later => (start, d) :: backToBack (start + d) later
  end.

(** The cursor after sources of the given durations. *)
Definition cursorAfter (start : Q) (durations : list Q) : Q :=
  fold_left Qplus durations start.

(** The flag is set at one of the places where it is read around this
    chunk. *)
Definition stopSeen (r : ChunkRun) : bool :=
  stoppingAtTop r || stoppingAfterTts r || stoppingAfterDecode r.

Lemma backToBack_durations start durations :
  map snd (backToBack start durations) = durations.
Proof.
  revert start. induction durations as [|d ds IH]; intros start; [reflexivity|].
  cbn. now rewrite IH.
Qed.

Lemma readLoop_shape API_KEY runs : forall nextStartTime started,
  exists exit durations,
    readLoop API_KEY runs nextStartTime started
    = (exit, cursorAfter nextStartTime durations,
       started ++ backToBack nextStartTime durations)
    /\ (length durations
        <= length (filter (fun r => negb (stopSeen r)) runs))%nat.
Proof.
  induction runs as [|r later IH]; intros nextStartTime started.
  - exists Left, []. cbn. now rewrite app_nil_r.
  - cbn [readLoop filter]. unfold stopSeen at 1.
    destruct (stoppingAtTop r).
    { exists Left, []. cbn. rewrite app_nil_r. split; [reflexivity | lia]. }
    destruct (generateTts API_KEY (tts r)) as [audioBase64 | err].
    2:{ exists Caught, []. cbn. rewrite app_nil_r. split; [reflexivity | lia]. }
    assert (Skip : exists exit durations,
               readLoop API_KEY later nextStartTime started
               = (exit, cursorAfter nextStartTime durations,
                  started ++ backToBack nextStartTime durations)
               /\ (length durations
                   <= length (if negb (false || stoppingAfterTts r
                                       || stoppingAfterDecode r)
                              then r :: filter (fun r => negb (stopSeen r)) later
                              else filter (fun r => negb (stopSeen r)) later))%nat).
    { destruct (IH nextStartTime started) as [exit [ds [E L]]].
      exists exit, ds. split; [exact E|].
      destruct (negb _); cbn [length]; lia. }
    destruct (or_else audioBase64 None); [|exact Skip].
    destruct (stoppingAfterTts r) eqn:S2; cbn [negb]; [exact Skip|].
    destruct (decoded r) as [duration|].
    2:{ exists Caught, []. cbn. rewrite app_nil_r. split; [reflexivity | lia]. }
    destruct (stoppingAfterDecode r) eqn:S3.
    { exists Left, []. cbn. rewrite app_nil_r. split; [reflexivity | lia]. }
    destruct (IH (nextStartTime + duration) (started ++ [(nextStartTime, duration)]))
      as [exit [ds [E L]]].
    exists exit, (duration :: ds). split.
    + rewrite E. cbn [cursorAfter fold_left backToBack].
      now rewrite <- app_assoc.
    + cbn. lia.
Qed.

Lemma readLoop_stops API_KEY before r after :
  stoppingAtTop r = true ->
  forall nextStartTime started,
    readLoop API_KEY (before ++ r :: after) nextStartTime started
    = readLoop API_KEY before nextStartTime started.
Proof.
  intros Hstop. induction before as [|b before IH]; intros nextStartTime started.
  - cbn. now rewrite Hstop.
  - cbn [app readLoop]. destruct (stoppingAtTop b); [reflexivity|].
    destruct (generateTts API_KEY (tts b)) as [audioBase64 | err]; [|reflexivity].
    destruct (or_else audioBase64 None); [|apply IH].
    destruct (negb (stoppingAfterTts b)); [|apply IH].
    destruct (decoded b); [|reflexivity].
    destruct (stoppingAfterDecode b); [reflexivity | apply IH].
Qed.

(** X10.  Reading aloud: the sources the loop starts play back to back from
    the clock value read before the loop, each for the duration of its
    buffer, and the cursor ends where the last one ends; there is at
    most one source per chunk around which the stop flag was not seen;
    once the flag is seen at the top of the loop nothing later is
    started, whatever the remaining chunks are; and without a
    credential nothing is started at all. *)
Theorem reading_is_back_to_back_and_stops
    (API_KEY : option jsstring) (runs : list ChunkRun) (start : Q) :
  let result := readLoop API_KEY runs start [] in
  snd result = backToBack start (map snd (snd result))
  /\ snd (fst result) = cursorAfter start (map snd (snd result))
  /\ (length (snd result)
      <= length (filter (fun r => negb (stopSeen r)) runs))%nat
  /\ (forall before r after,
        runs = before ++ r :: after -> stoppingAtTop r = true ->
        result = readLoop API_KEY before start [])
  /\ (keyMissing API_KEY = true -> snd result = []).
Proof.
  cbv zeta.
  destruct (readLoop_shape API_KEY runs start []) as [exit [ds [E L]]].
  cbn [app] in E. rewrite E. cbn [fst snd]. rewrite backToBack_durations.
  split; [reflexivity|]. split; [reflexivity|]. split.
  - assert (length (backToBack start ds) = length ds) as ->; [|exact L].
    rewrite <- (backToBack_durations start ds) at 2. now rewrite length_map.
  - split.
    + intros before r after -> Hstop. rewrite <- E. now apply readLoop_stops.
    + intros Hkey.
      assert (X : snd (readLoop API_KEY runs start []) = []);
        [|rewrite E in X; exact X].
      clear E L. destruct runs as [|r later]; [reflexivity|].
      cbn [readLoop]. destruct (stoppingAtTop r); [reflexivity|].
      unfold generateTts. rewrite (getGenAI_missing _ Hkey). reflexivity.
Qed.

End ReadAloud.
